(** * json-log-viewer: the circular log buffer, the rule engine and the
      directory scan, embedded from [messageContainer.go] and the main file.

    Go's [int] is modelled as [Z].  Inside [LogBuffer] every intermediate
    value lies between [-1] and [2 * capacity], and a slice that large cannot
    be allocated near the 64-bit limit, so the arithmetic there is written
    without wrap-around; the one sum of two caller-supplied integers
    ([limit + offset] in [processDir]) is wrapped to 64 bits.  Go's [%] is the
    truncated remainder [Z.rem]; indexing or slicing out of range and [%] by
    zero panic. *)

From Stdlib Require Import ZArith Lia.
From stdpp Require Import base numbers option list strings sorting gmap.

Open Scope Z_scope.

Set Warnings "-register-all".

(** ** Run-time values and errors *)

(** A value of Go's [any] as [encoding/json] produces it (nil, bool, float64,
    string, []any, map[string]any).  A float64 is kept as its 64-bit pattern,
    an object as its key/value bindings (the keys of a Go map are unique; the
    lookup below takes the first binding of a key). *)
Inductive any : Type :=
| ANil
| ABool (b : bool)
| AFloat64 (bits : Z)
| AString (s : string)
| AArray (els : list any)
| AObject (fields : list (string * any)).

(** An argument of a format string: [FDump] is [spew.Sdump(data)]. *)
Inductive fmtArg : Type :=
| FAny (a : any)
| FInt (i : Z)
| FStr (s : string)
| FDump (a : any).

(** Go [error] values: [errors.New(text)], [fmt.Errorf(format, args...)]
    whose last verb may be [%w] wrapping another error, and the errors of the
    [os] package, which the program only passes on. *)
Inductive error : Type :=
| errors_New (text : string)
| fmt_Errorf (format : string) (args : list fmtArg) (wrapped : option error)
| os_Error (op path text : string).

(** The three ways a call can end: a value, a returned [error], a run-time
    panic; [OutOfFuel] is the model's own fourth, for the recursion of the
    rule engine. *)
Inductive result (A : Type) : Type :=
| Ok (a : A)
| Err (e : error)
| Panic
| OutOfFuel.
Arguments Ok {A} a.
Arguments Err {A} e.
Arguments Panic {A}.
Arguments OutOfFuel {A}.

Definition rbind {A B : Type} (m : result A) (k : A -> result B) : result B :=
  match m with
  | Ok a => k a
  | Err e => Err e
  | Panic => Panic
  | OutOfFuel => OutOfFuel
  end.

Notation "x <-- m ;; k" := (rbind m (fun x => k))
  (at level 100, m at next level, right associativity).

(** ** Slices *)

(** [a % b]: truncated remainder, panics when [b] is zero. *)
Definition go_rem (a b : Z) : result Z :=
  if b =? 0 then Panic else Ok (Z.rem a b).

(** [s[i]] as an r-value. *)
Definition index {A : Type} (s : list A) (i : Z) : result A :=
  if (i <? 0) || (Z.of_nat (length s) <=? i) then Panic
  else match s !! Z.to_nat i with
       | Some x => Ok x
       | None => Panic
       end.

(** [s[i] = x]. *)
Definition store {A : Type} (s : list A) (i : Z) (x : A) : result (list A) :=
  if (i <? 0) || (Z.of_nat (length s) <=? i) then Panic
  else Ok (<[Z.to_nat i := x]> s).

(** [s[lo:hi]] of a slice whose capacity is its length. *)
Definition slice {A : Type} (s : list A) (lo hi : Z) : result (list A) :=
  if (lo <? 0) || (hi <? lo) || (Z.of_nat (length s) <? hi) then Panic
  else Ok (take (Z.to_nat (hi - lo)) (drop (Z.to_nat lo) s)).

(** [copy(dst, src)]: the first [min (len dst) (len src)] elements of [dst]
    are overwritten; the function gives the new contents of [dst]. *)
Definition copy {A : Type} (dst src : list A) : list A :=
  take (length dst) src ++ drop (length src) dst.

(** [make([]string, n)]. *)
Definition make (n : Z) : result (list string) :=
  if n <? 0 then Panic else Ok (replicate (Z.to_nat n) ""%string).

(** ** LogBuffer (messageContainer.go) *)

Record LogBuffer : Type := mkLogBuffer {
  buffer : list string;
  capacity : Z;
  size : Z;
  start : Z;
  end_ : Z;
  isFull : bool
}.

Definition NewLogBuffer (capacity : Z) : LogBuffer :=
  let capacity := if capacity <=? 0 then 100 else capacity in
  {| buffer := replicate (Z.to_nat capacity) ""%string;
     capacity := capacity;
     size := 0;
     start := 0;
     end_ := 0;
     isFull := false |}.

Definition Push (b : LogBuffer) (message : string) : result LogBuffer :=
  buffer' <-- store (buffer b) (end_ b) message ;;
  ss <-- (if isFull b
          then (s <-- go_rem (start b + 1) (capacity b) ;; Ok (s, size b))
          else Ok (start b, size b + 1)) ;;
  end' <-- go_rem (end_ b + 1) (capacity b) ;;
  Ok {| buffer := buffer';
        capacity := capacity b;
        size := ss.2;
        start := ss.1;
        end_ := end';
        isFull := if end' =? ss.1 then true else isFull b |}.

(** [for i := 0; i < n; i++ { idx = (idx - 1 + capacity) % capacity }] *)
Fixpoint stepBack (n : nat) (cap idx : Z) : result Z :=
  match n with
  | O => Ok idx
  | S n' => idx' <-- go_rem (idx - 1 + cap) cap ;; stepBack n' cap idx'
  end.

(** [for i := 0; i < count; i++ { result = append(result, buffer[(chronoStart + i) % capacity]) }],
    entered with [n] iterations left at index [i]. *)
Fixpoint collect (n : nat) (buf : list string) (cap chronoStart i : Z)
    (acc : list string) : result (list string) :=
  match n with
  | O => Ok acc
  | S n' =>
      idx <-- go_rem (chronoStart + i) cap ;;
      x <-- index buf idx ;;
      collect n' buf cap chronoStart (i + 1) (acc ++ [x])
  end.

Definition Get_error : error :=
  errors_New "offset must be >= 0 and limit must be > 0".

Definition Get (b : LogBuffer) (offset limit : Z) : result (list string) :=
  if (offset <? 0) || (limit <=? 0) then Err Get_error
  else if size b =? 0 then Ok []
  else
    let totalAvailable := size b - offset in
    if totalAvailable <=? 0 then Ok []
    else
      let count := if totalAvailable <? limit then totalAvailable else limit in
      newestIndex <-- go_rem (end_ b - 1 + capacity b) (capacity b) ;;
      startIndex <-- stepBack (Z.to_nat offset) (capacity b) newestIndex ;;
      chronoStart <-- stepBack (Z.to_nat (count - 1)) (capacity b) startIndex ;;
      collect (Z.to_nat count) (buffer b) (capacity b) chronoStart 0 [].

Definition GetAll (b : LogBuffer) : result (list string) :=
  if size b =? 0 then Ok []
  else
    result0 <-- make (size b) ;;
    if isFull b || (start b <? end_ b) then
      part <-- slice (buffer b) (start b) (end_ b) ;;
      Ok (copy result0 part)
    else
      firstPart <-- slice (buffer b) (start b) (Z.of_nat (length (buffer b))) ;;
      secondPart <-- slice (buffer b) 0 (end_ b) ;;
      let result1 := copy result0 firstPart in
      tail <-- slice result1 (Z.of_nat (length firstPart)) (Z.of_nat (length result1)) ;;
      Ok (take (length firstPart) result1 ++ copy tail secondPart).

Definition Size (b : LogBuffer) : Z := size b.

Definition Capacity (b : LogBuffer) : Z := capacity b.

Definition Clear (b : LogBuffer) : LogBuffer :=
  {| buffer := buffer b;
     capacity := capacity b;
     size := 0;
     start := 0;
     end_ := 0;
     isFull := false |}.

(** A sequence of [Push] calls, in order. *)
Fixpoint pushAll (b : LogBuffer) (messages : list string) : result LogBuffer :=
  match messages with
  | [] => Ok b
  | m :: rest => b' <-- Push b m ;; pushAll b' rest
  end.

(** A client's calls that change the buffer. *)
Inductive call : Type :=
| CallPush (message : string)
| CallClear.

Fixpoint runCalls (b : LogBuffer) (calls : list call) : result LogBuffer :=
  match calls with
  | [] => Ok b
  | CallPush m :: rest => b' <-- Push b m ;; runCalls b' rest
  | CallClear :: rest => runCalls (Clear b) rest
  end.

(** ** Rules (main file) *)

Record Rule : Type := mkRule {
  Op : string;
  Data : any
}.

(** The zero value of [Rule]. *)
Definition Rule_zero : Rule := {| Op := ""; Data := ANil |}.

Fixpoint fields_lookup (fields : list (string * any)) (key : string) : option any :=
  match fields with
  | [] => None
  | (k, v) :: rest => if String.eqb k key then Some v else fields_lookup rest key
  end.

(** [obj[key]] on a [map[string]any]: the zero value nil when the key is absent. *)
Definition map_index (obj : list (string * any)) (key : string) : any :=
  match fields_lookup obj key with
  | Some v => v
  | None => ANil
  end.

(** A Go pair [(bool, error)]; the error is [None] for nil.  Both components
    are kept, as a caller can see both. *)
Definition verdict : Type := bool * option error.

(** The result of running a rule, or [None] when the recursion of the model
    ran out of fuel. *)
Definition runFn : Type := Rule -> any -> option verdict.

(** [ruleOpFn].  In Go an operation receives the rule set, and uses it only
    to call [d.Run(rules, arg)] on a nested rule; that type refers to itself
    through a function argument, so the operation receives that call
    instead: [run d arg] stands for [d.Run(rules, arg)]. *)
Definition ruleOpFn : Type := runFn -> any -> any -> option verdict.

Abbreviation ruleset := (gmap string ruleOpFn).

Definition ruleDataToRule (data : any) : Rule * option error :=
  match data with
  | AObject obj =>
      match map_index obj "Op" with
      | AString op => ({| Op := op; Data := map_index obj "Data" |}, None)
      | v => (Rule_zero,
              Some (fmt_Errorf "data to rule: Op %q not a string" [FAny v] None))
      end
  | _ => (Rule_zero,
          Some (fmt_Errorf "data to rule: %q not an object" [FAny data] None))
  end.

Definition op_not : ruleOpFn := fun run data arg =>
  let '(d, err) := ruleDataToRule data in
  match err with
  | Some e => Some (false, Some (fmt_Errorf "rule not: data is not rule: %w" [] (Some e)))
  | None =>
      match run d arg with
      | None => None
      | Some (ret, err) => Some (negb ret, err)
      end
  end.

(** The loop of [or] from element [i] on. *)
Fixpoint or_loop (run : runFn) (i : Z) (els : list any) (arg : any) : option verdict :=
  match els with
  | [] => Some (false, None)
  | el :: rest =>
      let '(d, err) := ruleDataToRule el in
      match err with
      | Some e => Some (false, Some (fmt_Errorf "rule or: data %d is not rule: %w" [FInt i] (Some e)))
      | None =>
          match run d arg with
          | None => None
          | Some (ret, Some e) =>
              Some (ret, Some (fmt_Errorf "running or rule %d: %w" [FInt i] (Some e)))
          | Some (true, None) => Some (true, None)
          | Some (false, None) => or_loop run (i + 1) rest arg
          end
      end
  end.

Definition op_or : ruleOpFn := fun run data arg =>
  match data with
  | AArray els => or_loop run 0 els arg
  | _ => Some (false, Some (fmt_Errorf "rule or: data is not array (%q)" [FDump data] None))
  end.

(** The loop of [and] from element [i] on. *)
Fixpoint and_loop (run : runFn) (i : Z) (els : list any) (arg : any) : option verdict :=
  match els with
  | [] => Some (true, None)
  | el :: rest =>
      let '(d, err) := ruleDataToRule el in
      match err with
      | Some e => Some (false, Some (fmt_Errorf "rule and: data %d is not rule: %w" [FInt i] (Some e)))
      | None =>
          match run d arg with
          | None => None
          | Some (ret, Some e) =>
              Some (ret, Some (fmt_Errorf "running and rule %d: %w" [FInt i] (Some e)))
          | Some (false, None) => Some (false, None)
          | Some (true, None) => and_loop run (i + 1) rest arg
          end
      end
  end.

Definition op_and : ruleOpFn := fun run data arg =>
  match data with
  | AArray els => and_loop run 0 els arg
  | _ => Some (false, Some (fmt_Errorf "rule and: data is not array (%q)" [FDump data] None))
  end.

(** [strings.HasPrefix], [strings.Contains], [strings.HasSuffix]. *)
Fixpoint HasPrefix (s prefix : string) : bool :=
  match prefix, s with
  | EmptyString, _ => true
  | String c prefix', String d s' => Ascii.eqb c d && HasPrefix s' prefix'
  | String _ _, EmptyString => false
  end.

Fixpoint Contains (s substr : string) : bool :=
  HasPrefix s substr ||
  match s with
  | EmptyString => false
  | String _ s' => Contains s' substr
  end.

Definition HasSuffix (s suffix : string) : bool :=
  (String.length suffix <=? String.length s)%nat &&
  String.eqb (String.substring (String.length s - String.length suffix)
                               (String.length suffix) s) suffix.

Definition op_contains : ruleOpFn := fun run data arg =>
  match arg with
  | AString d =>
      match data with
      | AString check => Some (Contains d check, None)
      | _ => Some (false, Some (errors_New "rule contains: data is not string"))
      end
  | _ => Some (false, Some (errors_New "rule contains: arg is not string"))
  end.

Definition definedRuleOps : ruleset :=
  {[ "not"%string := op_not;
     "or"%string := op_or;
     "and"%string := op_and;
     "contains"%string := op_contains ]}.

(** [Rule.Run]; [fuel] bounds the nesting of calls. *)
Fixpoint Run (fuel : nat) (rules : ruleset) (r : Rule) (arg : any) : option verdict :=
  match fuel with
  | O => None
  | S fuel' =>
      match rules !! Op r with
      | None => Some (false, Some (fmt_Errorf "run rule op %q not found" [FStr (Op r)] None))
      | Some op => op (Run fuel' rules) (Data r) arg
      end
  end.

(** The nesting depth of a value: fuel above it suffices for [definedRuleOps]. *)
Fixpoint depth (a : any) : nat :=
  match a with
  | AArray els => S (foldr (fun el acc => Nat.max (depth el) acc) O els)
  | AObject fields =>
      S (foldr (fun kv acc => Nat.max (let '(_, v) := kv in depth v) acc) O fields)
  | _ => O
  end.

(** A rule as the persisted description nests it. *)
Definition rule_value (r : Rule) : any :=
  AObject [("Op"%string, AString (Op r)); ("Data"%string, Data r)].

(** ** The directory scan (main file) *)

(** [os.DirEntry], as far as the scan looks at it. *)
Record DirEntry : Type := mkDirEntry {
  Name : string;
  IsDir : bool
}.

(** An opened file: the lines its [bufio.Scanner] yields, in order.  A read
    error or an over-long line only ends that sequence: the code does not
    look at [scanner.Err()]. *)
Definition File : Type := list string.

(** A returned record, [map[string]any]. *)
Abbreviation record := (gmap string any).

(** What the scan asks of its surroundings: the directory listing, opening a
    file, joining a path, and decoding a line into a [map[string]any]
    ([None] when [json.Unmarshal] returns an error). *)
Record Env : Type := mkEnv {
  os_ReadDir : string -> list DirEntry * option error;
  os_Open : string -> File + error;
  filepath_Join : string -> string -> string;
  json_Unmarshal : string -> option record
}.

(** [limit + offset] on 64-bit [int]. *)
Definition int_add (a b : Z) : Z :=
  (a + b + 2 ^ 63) mod 2 ^ 64 - 2 ^ 63.

(** [for scanner.Scan() { buf.Push(scanner.Text()) }] *)
Fixpoint pushLines (buf : LogBuffer) (lines : File) : result LogBuffer :=
  match lines with
  | [] => Ok buf
  | line :: rest => buf' <-- Push buf line ;; pushLines buf' rest
  end.

Definition line_error (line : string) (err : error) : error :=
  fmt_Errorf "processing rule on line %q: %w" [FStr line] (Some err).

(** The loop over the lines of a file when a rule is given. *)
Fixpoint matchLines (fuel : nat) (rule : Rule) (buf : LogBuffer) (lines : File)
    : result LogBuffer :=
  match lines with
  | [] => Ok buf
  | line :: rest =>
      match Run fuel definedRuleOps rule (AString line) with
      | None => OutOfFuel
      | Some (_, Some err) => Err (line_error line err)
      | Some (true, None) => buf' <-- Push buf line ;; matchLines fuel rule buf' rest
      | Some (false, None) => matchLines fuel rule buf rest
      end
  end.

Definition scanFile (fuel : nat) (rule : option Rule) (buf : LogBuffer) (f : File)
    : result LogBuffer :=
  match rule with
  | None => pushLines buf f
  | Some r => matchLines fuel r buf f
  end.

(** The loop over the directory entries. *)
Fixpoint scanEntries (env : Env) (fuel : nat) (dirPath : string) (rule : option Rule)
    (buf : LogBuffer) (d : list DirEntry) : result LogBuffer :=
  match d with
  | [] => Ok buf
  | de :: rest =>
      if IsDir de then scanEntries env fuel dirPath rule buf rest
      else if negb (HasSuffix (Name de) ".log") then scanEntries env fuel dirPath rule buf rest
      else
        match os_Open env (filepath_Join env dirPath (Name de)) with
        | inr err => Err err
        | inl f =>
            buf' <-- scanFile fuel rule buf f ;;
            scanEntries env fuel dirPath rule buf' rest
        end
  end.

(** The body of the last loop, for one message. *)
Definition parseMsg (env : Env) (msg : string) : record :=
  match json_Unmarshal env msg with
  | None => {[ "message"%string := AString msg ]}
  | Some msgParsed => msgParsed
  end.

(** [for _, msg := range slices.Backward(msgs) { ... ret = append(ret, ...) }],
    over the messages in the order the loop visits them. *)
Fixpoint parseMsgs (env : Env) (visited : list string) (ret : list record) : list record :=
  match visited with
  | [] => ret
  | msg :: rest => parseMsgs env rest (ret ++ [parseMsg env msg])
  end.

(** The buffer at the end of the scan; the first part of [processDir]. *)
Definition scanDir (env : Env) (fuel : nat) (dirPath : string) (rule : option Rule)
    (limit offset : Z) : result LogBuffer :=
  let '(d, err) := os_ReadDir env dirPath in
  match err with
  | Some e => Err e
  | None =>
      let buf := NewLogBuffer (int_add limit offset) in
      scanEntries env fuel dirPath rule buf d
  end.

Definition processDir (env : Env) (fuel : nat) (dirPath : string) (rule : option Rule)
    (limit offset : Z) : result (list record) :=
  buf <-- scanDir env fuel dirPath rule limit offset ;;
  msgs <-- Get buf offset limit ;;
  Ok (parseMsgs env (reverse msgs) []).

(** [el] decodes to a rule on which [run] ends with the verdict [v]. *)
Definition decodes_to (run : runFn) (arg : any) (v : verdict) (el : any) : Prop :=
  exists r, ruleDataToRule el = (r, None) /\ run r arg = Some v.

(** ** The allocation of the scan buffer

    [NewLogBuffer] above is the buffer [NewLogBuffer] returns.  Its
    [make([]string, capacity)] panics ("makeslice: len out of range") when
    the runtime cannot allocate a slice of that length; [max_len] is the
    longest [[]string] it can allocate.  The definitions below carry that
    panic; [processDir] above is [processDir_within] when the allocation
    succeeds. *)
Definition make_within (max_len n : Z) : result (list string) :=
  if (n <? 0) || (max_len <? n) then Panic
  else Ok (replicate (Z.to_nat n) ""%string).

Definition NewLogBuffer_within (max_len capacity : Z) : result LogBuffer :=
  let capacity := if capacity <=? 0 then 100 else capacity in
  buffer <-- make_within max_len capacity ;;
  Ok {| buffer := buffer;
        capacity := capacity;
        size := 0;
        start := 0;
        end_ := 0;
        isFull := false |}.

Definition processDir_within (max_len : Z) (env : Env) (fuel : nat) (dirPath : string)
    (rule : option Rule) (limit offset : Z) : result (list record) :=
  let '(d, err) := os_ReadDir env dirPath in
  match err with
  | Some e => Err e
  | None =>
      buf <-- NewLogBuffer_within max_len (int_add limit offset) ;;
      buf <-- scanEntries env fuel dirPath rule buf d ;;
      msgs <-- Get buf offset limit ;;
      Ok (parseMsgs env (reverse msgs) [])
  end.

(** ** The request handler and the parameter rendering (main file) *)

(** [SavedStuff].  A [*Rule] is [None] when the pointer is nil, which is
    also what indexing a map of pointers gives for a missing key. *)
Record SavedStuff : Type := mkSavedStuff {
  RuleSets : gmap string (option Rule);
  LogDirs : gmap string (gmap string (option Rule))
}.

(** [m[key]] on a [map[string]*Rule]. *)
Definition rules_index (m : gmap string (option Rule)) (key : string) : option Rule :=
  match m !! key with
  | Some rule => rule
  | None => None
  end.

(** The rule [handleLogDir] picks: the directory's own rule set of that
    name, else the global one, else nil. *)
Definition handleLogDir_rule (saved : SavedStuff) (dirName ruleSetName : string)
    : option Rule :=
  let rule :=
    match LogDirs saved !! dirName with
    | Some dirRules => rules_index dirRules ruleSetName
    | None => None
    end in
  match rule with
  | None => rules_index (RuleSets saved) ruleSetName
  | Some _ => rule
  end.

(** [strconv.Atoi(value)] with the default [handleLogDir] falls back on;
    [Atoi] itself is a parameter, [inr] being its error. *)
Definition query_int (Atoi : string -> Z + error) (value : string) (default : Z) : Z :=
  match Atoi value with
  | inl n => n
  | inr _ => default
  end.

(** The part of [handleLogDir] between the decoding of [saved.json] and the
    rendering: the call of [processDir] on the query values [limit] and
    [offset] (the empty string when the parameter is absent). *)
Definition handleLogDir_messages (env : Env) (Atoi : string -> Z + error) (fuel : nat)
    (saved : SavedStuff) (dirName ruleSetName limit offset : string)
    : result (list record) :=
  let limit := query_int Atoi limit 500 in
  let offset := query_int Atoi offset 0 in
  let rule := handleLogDir_rule saved dirName ruleSetName in
  processDir env fuel dirName rule limit offset.

(** The order of [slices.Sorted] on strings: byte-wise lexicographic. *)
Definition string_le (a b : string) : Prop := String.leb a b = true.

#[global] Instance string_le_dec (a b : string) : Decision (string_le a b).
Proof. unfold string_le. apply _. Defined.

(** [slices.Sorted(maps.Keys(msg))]: the keys in ascending order, whatever
    order the map iterates in. *)
Definition sorted_keys (msg : record) : list string :=
  merge_sort string_le (map_to_list msg).*1.

Definition skip : list string := ["level"; "time"; "message"]%string.

(** [marshalOtherParams]; the renderings of [%q] on a key and of [%v] on a
    value by [fmt.Sprintf] are parameters.  [msg[k]] is nil for no key. *)
Definition marshalOtherParams (fmt_q : string -> string) (fmt_v : any -> string)
    (msg : record) : string :=
  foldl (fun ret k =>
           if bool_decide (k ∈ skip) then ret
           else String.append ret
                  (String.append (fmt_q k)
                     (String.append "=" (String.append (fmt_v (default ANil (msg !! k))) " "))))
        EmptyString (sorted_keys msg).

(** ** Specification vocabulary *)

(** The last [n] elements of a list: what a buffer of capacity [n] retains. *)
Definition lastn {A : Type} (n : nat) (l : list A) : list A :=
  drop (length l - n)%nat l.

(** The page of the spec: [offset] items back from the newest, at most
    [limit] items further back in time, oldest first.  [kept] is in
    chronological order. *)
Definition page {A : Type} (kept : list A) (offset limit : nat) : list A :=
  reverse (take limit (drop offset (reverse kept))).

(** What a buffer of capacity [n] holding [kept] retains after [calls]. *)
Fixpoint retained (n : nat) (kept : list string) (calls : list call) : list string :=
  match calls with
  | [] => kept
  | CallPush m :: rest => retained n (lastn n (kept ++ [m])) rest
  | CallClear :: rest => retained n [] rest
  end.

(** [repr C kept b]: [b] has capacity [C] and holds the items [kept],
    oldest first, laid out on the ring from [start b]. *)
Record repr (C : Z) (kept : list string) (b : LogBuffer) : Prop := mkRepr {
  repr_capacity : capacity b = C;
  repr_length : Z.of_nat (length (buffer b)) = C;
  repr_size : size b = Z.of_nat (length kept);
  repr_bound : size b <= C;
  repr_full : isFull b = bool_decide (size b = C);
  repr_start : 0 <= start b < C;
  repr_end : end_ b = (start b + size b) mod C;
  repr_linear : isFull b = false -> start b = 0;
  repr_items : forall i : nat, (i < length kept)%nat ->
    buffer b !! Z.to_nat ((start b + Z.of_nat i) mod C) = kept !! i
}.

(** [run'] gives every verdict [run] gives. *)
Definition extends (run run' : runFn) : Prop :=
  forall d a v, run d a = Some v -> run' d a = Some v.

(** The lines of a file are all judged without an error. *)
Definition judged (fuel : nat) (r : Rule) (f : File) : Prop :=
  Forall (fun line => exists ret, Run fuel definedRuleOps r (AString line) = Some (ret, None)) f.

(** A directory entry the scan reads: a regular file named [*.log]. *)
Definition eligible (de : DirEntry) : Prop :=
  IsDir de = false /\ HasSuffix (Name de) ".log" = true.

(** An entry the scan gets past: skipped, or opened and judged without error. *)
Definition passes (env : Env) (fuel : nat) (dirPath : string) (rule : option Rule)
    (de : DirEntry) : Prop :=
  eligible de ->
  exists f, os_Open env (filepath_Join env dirPath (Name de)) = inl f /\
            forall r, rule = Some r -> judged fuel r f.

(** [errors.Unwrap]. *)
Definition Unwrap (e : error) : option error :=
  match e with
  | fmt_Errorf _ _ wrapped => wrapped
  | _ => None
  end.

(** A scan step ended as Go code can end, on a well-formed buffer of
    capacity [C]: neither a panic nor a lack of fuel. *)
Definition ends_well (C : Z) (res : result LogBuffer) : Prop :=
  match res with
  | Ok b => exists kept, repr C kept b
  | Err _ => True
  | Panic | OutOfFuel => False
  end.

(** The fuel is above the depth of the rule, if there is one. *)
Definition enough_fuel (fuel : nat) (rule : option Rule) : Prop :=
  forall r, rule = Some r -> (depth (Data r) < fuel)%nat.

(** ** A small directory for the examples

    [logs] holds [a.log] and [b.log] of three lines each; [mixed] holds a
    sub-directory, a text file and [c.log] of two lines, one of them a JSON
    object; [broken] holds [c.log] and a file that cannot be opened.  The
    decoder of the examples accepts the empty object only. *)
Definition demo_ReadDir (path : string) : list DirEntry * option error :=
  if String.eqb path "logs" then
    ([mkDirEntry "a.log" false; mkDirEntry "b.log" false], None)
  else if String.eqb path "mixed" then
    ([mkDirEntry "old" true; mkDirEntry "notes.txt" false;
      mkDirEntry "c.log" false], None)
  else if String.eqb path "broken" then
    ([mkDirEntry "c.log" false; mkDirEntry "gone.log" false], None)
  else ([], Some (os_Error "open" path "no such file or directory")).

Definition demo_Open (path : string) : File + error :=
  if String.eqb path "logs/a.log" then inl ["a1"; "a2"; "a3"]%string
  else if String.eqb path "logs/b.log" then inl ["b1"; "b2"; "b3"]%string
  else if String.eqb path "mixed/c.log" then inl ["{}"; "plain text"]%string
  else if String.eqb path "broken/c.log" then inl ["{}"; "plain text"]%string
  else inr (os_Error "open" path "permission denied").

Definition demo_env : Env :=
  {| os_ReadDir := demo_ReadDir;
     os_Open := demo_Open;
     filepath_Join := fun dir name => (dir ++ "/" ++ name)%string;
     json_Unmarshal := fun msg => if String.eqb msg "{}" then Some ∅ else None |}.

(** A rule description every node of which has a registered operation and
    data of the shape that operation expects. *)
Inductive well_formed : Rule -> Prop :=
| wf_contains (check : string) :
    well_formed (mkRule "contains" (AString check))
| wf_not (data : any) (r : Rule) :
    ruleDataToRule data = (r, None) -> well_formed r ->
    well_formed (mkRule "not" data)
| wf_or (els : list any) :
    Forall (fun el => exists r, ruleDataToRule el = (r, None) /\ well_formed r) els ->
    well_formed (mkRule "or" (AArray els))
| wf_and (els : list any) :
    Forall (fun el => exists r, ruleDataToRule el = (r, None) /\ well_formed r) els ->
    well_formed (mkRule "and" (AArray els)).

(** The description of [not] over the rule described by [el]. *)
Definition not_value (el : any) : any := rule_value (mkRule "not" el).

(** [eligible] as the test the scan makes. *)
Definition eligibleb (de : DirEntry) : bool :=
  negb (IsDir de) && HasSuffix (Name de) ".log".

(** The lines of the files the scan reads, in the order it reads them: the
    eligible entries in listing order, each file's lines in file order. *)
Fixpoint readable (env : Env) (dirPath : string) (d : list DirEntry) : list string :=
  match d with
  | [] => []
  | de :: rest =>
      if eligibleb de then
        match os_Open env (filepath_Join env dirPath (Name de)) with
        | inl f => f ++ readable env dirPath rest
        | inr _ => readable env dirPath rest
        end
      else readable env dirPath rest
  end.

(** The line is kept: there is no rule, or the rule returns true and nil. *)
Definition accepts (fuel : nat) (rule : option Rule) (line : string) : bool :=
  match rule with
  | None => true
  | Some r =>
      match Run fuel definedRuleOps r (AString line) with
      | Some (true, None) => true
      | _ => false
      end
  end.

(** The surroundings [env] with another listing for every directory. *)
Definition with_listing (env : Env) (d : list DirEntry) : Env :=
  {| os_ReadDir := fun _ => (d, None);
     os_Open := os_Open env;
     filepath_Join := filepath_Join env;
     json_Unmarshal := json_Unmarshal env |}.

(** What [marshalOtherParams] appends for the key [k]: [Sprintf("%q=%v ", k, msg[k])]. *)
Definition render_param (fmt_q : string -> string) (fmt_v : any -> string)
    (msg : record) (k : string) : string :=
  String.append (fmt_q k)
    (String.append "=" (String.append (fmt_v (default ANil (msg !! k))) " ")).

(** The renderings of the keys, one after the other. *)
Definition render_params (fmt_q : string -> string) (fmt_v : any -> string)
    (msg : record) (keys : list string) : string :=
  foldr (fun k rest => String.append (render_param fmt_q fmt_v msg k) rest) EmptyString keys.

(** * The circular buffer *)

Section Arith.

Lemma rem_nonneg (a c : Z) : 0 <= a -> 0 < c -> Z.rem a c = a mod c.
Proof. intros. apply Z.rem_mod_nonneg; lia. Qed.

Lemma go_rem_nonneg (a c : Z) : 0 <= a -> 0 < c -> go_rem a c = Ok (a mod c).
Proof.
  intros Ha Hc. unfold go_rem.
  destruct (Z.eqb_spec c 0); [lia|]. by rewrite rem_nonneg.
Qed.

(** Within one lap of the ring the wrapped index is a subtraction. *)
Lemma mod_lap (a c : Z) :
  0 <= a < 2 * c -> a mod c = if a <? c then a else a - c.
Proof.
  intros Ha. destruct (Z.ltb_spec a c).
  - apply Z.mod_small; lia.
  - replace a with ((a - c) + 1 * c) at 1 by lia.
    rewrite Z.mod_add by lia. apply Z.mod_small; lia.
Qed.

Lemma mod_range (a c : Z) : 0 < c -> 0 <= a mod c < c.
Proof. intros. apply Z.mod_pos_bound; lia. Qed.

Lemma mod_sub_sub (i o c C : Z) :
  ((i mod C - o) mod C - c) mod C = (i - o - c) mod C.
Proof.
  rewrite Zminus_mod_idemp_l.
  replace (i mod C - o - c) with (i mod C - (o + c)) by lia.
  rewrite Zminus_mod_idemp_l. f_equal. lia.
Qed.

End Arith.

Section Representation.

Lemma repr_New (c : Z) :
  repr (if c <=? 0 then 100 else c) [] (NewLogBuffer c).
Proof.
  unfold NewLogBuffer.
  set (C := if c <=? 0 then 100 else c).
  assert (0 < C) by (subst C; destruct (Z.leb_spec c 0); lia).
  split; simpl; rewrite ?length_replicate; try done; try lia.
  rewrite bool_decide_eq_false_2; [done | lia].
Qed.

Lemma repr_Clear (C : Z) (kept : list string) (b : LogBuffer) :
  0 < C -> repr C kept b -> repr C [] (Clear b).
Proof.
  intros HC [Hc Hl _ _ _ _ _ _ _].
  split; simpl; try done; try lia.
  rewrite bool_decide_eq_false_2; [done | lia].
Qed.

Lemma lastn_length {A : Type} (n : nat) (l : list A) :
  length (lastn n l) = Nat.min n (length l).
Proof. unfold lastn. rewrite length_drop. lia. Qed.

Lemma lastn_all {A : Type} (n : nat) (l : list A) :
  (length l <= n)%nat -> lastn n l = l.
Proof.
  intros H. unfold lastn.
  by replace (length l - n)%nat with 0%nat by lia.
Qed.

(** One [Push] on a represented buffer: it does not panic and it keeps the
    newest [C] of the old items followed by the new one. *)
Lemma repr_Push (C : Z) (kept : list string) (b : LogBuffer) (m : string) :
  0 < C -> repr C kept b ->
  exists b', Push b m = Ok b' /\ repr C (lastn (Z.to_nat C) (kept ++ [m])) b'.
Proof.
  intros HC [Hc Hl Hs Hb Hf Hst He Hlin Hit].
  assert (Hend : 0 <= end_ b < C) by (rewrite He; by apply mod_range).
  unfold Push, store.
  destruct (Z.ltb_spec (end_ b) 0); [lia|].
  destruct (Z.leb_spec (Z.of_nat (length (buffer b))) (end_ b)); [lia|].
  simpl. rewrite Hc.
  destruct (isFull b) eqn:Hfull.
  - (* full: the slot of the oldest item is overwritten *)
    symmetry in Hf. apply bool_decide_eq_true_1 in Hf.
    assert (Hse : end_ b = start b).
    { rewrite He, Hf. replace (start b + C) with (start b + 1 * C) by lia.
      rewrite Z.mod_add by lia. apply Z.mod_small; lia. }
    rewrite !go_rem_nonneg by lia. simpl. rewrite Hse.
    rewrite Z.eqb_refl.
    eexists; split; [reflexivity|].
    assert (Hk : lastn (Z.to_nat C) (kept ++ [m]) = drop 1 kept ++ [m]).
    { unfold lastn. rewrite length_app. simpl.
      replace (length kept + 1 - Z.to_nat C)%nat with 1%nat by lia.
      rewrite drop_app_le by lia. done. }
    rewrite Hk.
    assert (Hlen : length (drop 1 kept ++ [m]) = length kept).
    { rewrite length_app, length_drop. simpl. lia. }
    split; simpl;
      [ done | by rewrite length_insert | lia | lia
      | rewrite bool_decide_eq_true_2; [done | lia]
      | by apply mod_range | | done | ].
    + rewrite Hf. rewrite Z.add_mod_idemp_l by lia.
      replace (start b + 1 + C) with (start b + 1 + 1 * C) by lia.
      rewrite Z.mod_add by lia. done.
    + intros i Hi. rewrite Hlen in Hi.
      rewrite Z.add_mod_idemp_l by lia.
      destruct (decide (i = length kept - 1)%nat) as [->|Hne].
      * replace (start b + 1 + Z.of_nat (length kept - 1)) with (start b + 1 * C) by lia.
        rewrite Z.mod_add by lia. rewrite Z.mod_small by lia.
        rewrite list_lookup_insert_eq by lia.
        rewrite lookup_app_r by (rewrite length_drop; lia).
        rewrite length_drop.
        by replace (length kept - 1 - (length kept - 1))%nat with 0%nat by lia.
      * rewrite lookup_app_l by (rewrite length_drop; lia).
        rewrite lookup_drop.
        rewrite <- (Hit (1 + i)%nat) by lia.
        replace (start b + 1 + Z.of_nat i) with (start b + Z.of_nat (1 + i)) by lia.
        apply list_lookup_insert_ne.
        rewrite mod_lap by lia.
        destruct (Z.ltb_spec (start b + Z.of_nat (1 + i)) C); lia.
  - (* not full: the items lie at [0 .. size) and the new one is appended *)
    specialize (Hlin eq_refl).
    symmetry in Hf. apply bool_decide_eq_false_1 in Hf.
    assert (Hse : end_ b = size b).
    { rewrite He, Hlin. apply Z.mod_small; lia. }
    rewrite go_rem_nonneg by lia. simpl.
    eexists; split; [reflexivity|].
    rewrite lastn_all by (rewrite length_app; simpl; lia).
    assert (Hnew : (end_ b + 1) mod C = if size b + 1 <? C then size b + 1 else 0).
    { rewrite Hse, mod_lap by lia.
      destruct (Z.ltb_spec (size b + 1) C); lia. }
    split; simpl;
      [ done | by rewrite length_insert | rewrite length_app; simpl; lia | lia
      | | lia | | | ].
    + rewrite Hnew, Hlin.
      destruct (Z.ltb_spec (size b + 1) C).
      * destruct (Z.eqb_spec (size b + 1) 0); [lia|].
        rewrite bool_decide_eq_false_2; [done | lia].
      * simpl. rewrite bool_decide_eq_true_2; [done | lia].
    + rewrite Hnew, Hlin. rewrite Z.add_0_l, mod_lap by lia.
      destruct (Z.ltb_spec (size b + 1) C); lia.
    + rewrite Hnew, Hlin.
      destruct (Z.ltb_spec (size b + 1) C); [|done].
      destruct (Z.eqb_spec (size b + 1) 0); [lia|done].
    + intros i Hi. rewrite length_app in Hi. simpl in Hi. rewrite Hlin.
      rewrite Z.add_0_l, Z.mod_small by lia. rewrite Nat2Z.id.
      destruct (decide (i = length kept)) as [->|Hne].
      * rewrite lookup_app_r by lia. rewrite Nat.sub_diag. simpl.
        replace (Z.to_nat (end_ b)) with (length kept) by lia.
        apply list_lookup_insert_eq. lia.
      * rewrite lookup_app_l by lia.
        rewrite list_lookup_insert_ne by lia.
        rewrite <- (Hit i) by lia.
        rewrite Hlin, Z.add_0_l, Z.mod_small by lia. by rewrite Nat2Z.id.
Qed.

End Representation.
Section Retrieval.

Lemma lastn_app_lastn {A : Type} (n : nat) (l k : list A) :
  lastn n (lastn n l ++ k) = lastn n (l ++ k).
Proof.
  unfold lastn. rewrite !length_app, length_drop.
  destruct (decide (length l <= n)%nat) as [Hle|Hgt].
  - replace (length l - n)%nat with 0%nat by lia. simpl.
    by rewrite Nat.sub_0_r.
  - replace (length l - (length l - n) + length k - n)%nat with (length k) by lia.
    replace (length l + length k - n)%nat with ((length l - n) + length k)%nat by lia.
    rewrite <- (drop_app_le l k (length l - n)) by lia.
    by rewrite drop_drop.
Qed.

Lemma pushAll_repr (C : Z) (messages kept : list string) (b : LogBuffer) :
  0 < C -> repr C kept b ->
  exists b', pushAll b messages = Ok b' /\
             repr C (lastn (Z.to_nat C) (kept ++ messages)) b'.
Proof.
  intros HC. revert kept b.
  induction messages as [|m rest IH]; intros kept b Hr; simpl.
  - exists b. split; [done|].
    rewrite app_nil_r, lastn_all; [done|].
    destruct Hr as [_ _ Hs Hb _ _ _ _ _]. lia.
  - destruct (repr_Push C kept b m HC Hr) as (b1 & -> & Hr1). simpl.
    destruct (IH _ _ Hr1) as (b2 & Hp & Hr2).
    exists b2. split; [done|].
    rewrite lastn_app_lastn in Hr2.
    by rewrite <- app_assoc in Hr2.
Qed.

(** The decrement loop walks [n] slots back on the ring. *)
Lemma stepBack_spec (n : nat) (C idx : Z) :
  0 < C -> 0 <= idx < C ->
  stepBack n C idx = Ok ((idx - Z.of_nat n) mod C).
Proof.
  intros HC. revert idx.
  induction n as [|n IH]; intros idx Hidx; simpl stepBack.
  - rewrite Z.sub_0_r, Z.mod_small by lia. done.
  - rewrite go_rem_nonneg by lia. simpl.
    rewrite IH by (by apply mod_range).
    f_equal. rewrite Zminus_mod_idemp_l.
    replace (idx - 1 + C - Z.of_nat n) with (idx - Z.of_nat (S n) + 1 * C) by lia.
    by rewrite Z.mod_add by lia.
Qed.

(** The copy loop appends the slots [chronoStart + i ..] in ring order. *)
Lemma collect_spec (n : nat) (buf : list string) (C cs i : Z)
    (acc l : list string) :
  0 < C -> 0 <= cs -> 0 <= i ->
  Z.of_nat (length buf) = C ->
  length l = n ->
  (forall k : nat, (k < n)%nat ->
     buf !! Z.to_nat ((cs + i + Z.of_nat k) mod C) = l !! k) ->
  collect n buf C cs i acc = Ok (acc ++ l).
Proof.
  intros HC Hcs. revert i acc l.
  induction n as [|n IH]; intros i acc l Hi Hbuf Hlen Hk; simpl collect.
  - destruct l; [|done]. by rewrite app_nil_r.
  - destruct l as [|x l]; [done|]. simpl in Hlen.
    rewrite go_rem_nonneg by lia. simpl.
    pose proof (mod_range (cs + i) C HC) as Hr.
    pose proof (Hk 0%nat ltac:(lia)) as H0. simpl in H0.
    rewrite Z.add_0_r in H0.
    unfold index.
    destruct (Z.ltb_spec ((cs + i) mod C) 0); [lia|].
    destruct (Z.leb_spec (Z.of_nat (length buf)) ((cs + i) mod C)); [lia|].
    simpl. rewrite H0. simpl.
    rewrite (IH (i + 1) (acc ++ [x]) l); try lia.
    + by rewrite <- app_assoc.
    + intros k Hlt. specialize (Hk (S k) ltac:(lia)). simpl in Hk.
      rewrite <- Hk. do 3 f_equal. lia.
Qed.

Lemma page_as_window {A : Type} (kept : list A) (offset limit : nat) :
  page kept offset limit =
  take (Nat.min limit (length kept - offset))
       (drop (length kept - offset - limit) kept).
Proof.
  unfold page.
  rewrite drop_reverse, take_reverse, reverse_involutive, length_take.
  destruct (decide (offset <= length kept)%nat) as [Hle|Hgt].
  - replace (Nat.min (length kept - offset) (length kept)) with (length kept - offset)%nat by lia.
    rewrite take_drop_commute.
    do 2 f_equal. lia.
  - replace (length kept - offset)%nat with 0%nat by lia.
    rewrite Nat.min_0_r. simpl. by destruct kept.
Qed.

Lemma page_length {A : Type} (kept : list A) (offset limit : nat) :
  length (page kept offset limit) = Nat.min limit (length kept - offset).
Proof.
  rewrite page_as_window, length_take, length_drop. lia.
Qed.

Lemma page_lookup {A : Type} (kept : list A) (offset limit i : nat) :
  (i < Nat.min limit (length kept - offset))%nat ->
  page kept offset limit !! i =
  kept !! (length kept - offset - Nat.min limit (length kept - offset) + i)%nat.
Proof.
  intros Hi. rewrite page_as_window.
  rewrite lookup_take_lt by lia. rewrite lookup_drop. f_equal. lia.
Qed.

(** [Get] on a represented buffer, for arguments it accepts. *)
Lemma repr_Get (C : Z) (kept : list string) (b : LogBuffer) (offset limit : Z) :
  0 < C -> repr C kept b -> 0 <= offset -> 0 < limit ->
  Get b offset limit = Ok (page kept (Z.to_nat offset) (Z.to_nat limit)).
Proof.
  intros HC [Hc Hl Hs Hb Hf Hst He Hlin Hit] Ho Hlim.
  unfold Get.
  destruct (Z.ltb_spec offset 0); [lia|].
  destruct (Z.leb_spec limit 0); [lia|]. simpl.
  destruct (Z.eqb_spec (size b) 0) as [Hz|Hnz].
  { assert (kept = []) as -> by (destruct kept; simpl in *; [done|lia]).
    by rewrite page_as_window, drop_nil, take_nil. }
  destruct (Z.leb_spec (size b - offset) 0) as [Hav|Hav].
  { rewrite page_as_window.
    replace (length kept - Z.to_nat offset)%nat with 0%nat by lia.
    by rewrite Nat.min_0_r, take_0. }
  set (count := if size b - offset <? limit then size b - offset else limit).
  assert (Hcount : count = Z.min limit (size b - offset)).
  { subst count. destruct (Z.ltb_spec (size b - offset) limit); lia. }
  assert (Hend : 0 <= end_ b < C) by (rewrite He; by apply mod_range).
  rewrite Hc.
  rewrite go_rem_nonneg by lia. simpl.
  rewrite stepBack_spec by (try apply mod_range; lia). simpl.
  rewrite stepBack_spec by (try apply mod_range; lia). simpl.
  set (j := size b - offset - count).
  assert (Hcs : (((end_ b - 1 + C) mod C - Z.of_nat (Z.to_nat offset)) mod C
                  - Z.of_nat (Z.to_nat (count - 1))) mod C = (start b + j) mod C).
  { rewrite !Z2Nat.id by lia.
    rewrite mod_sub_sub, He.
    replace ((start b + size b) mod C - 1 + C - offset - (count - 1))
      with ((start b + size b) mod C + (C - offset - count)) by lia.
    rewrite Zplus_mod_idemp_l. subst j.
    replace (start b + size b + (C - offset - count))
      with (start b + (size b - offset - count) + 1 * C) by lia.
    by rewrite Z.mod_add by lia. }
  rewrite Hcs.
  rewrite (collect_spec _ _ C _ 0 [] (page kept (Z.to_nat offset) (Z.to_nat limit)));
    try done; try lia.
  - by apply mod_range.
  - rewrite page_length. lia.
  - intros k Hk.
    rewrite page_lookup by lia.
    rewrite Z.add_0_r, Z.add_mod_idemp_l by lia.
    rewrite <- Hit by lia.
    do 3 f_equal. lia.
Qed.

End Retrieval.

Section WholeBuffer.

(** [GetAll] on a represented buffer.  While the buffer is not full the
    items lie at [buffer[0:end]] and are copied out.  Once it is full,
    [start = end], so the slice [buffer[start:end]] of the contiguous branch
    is empty, nothing is copied and the result keeps its [size] zero values. *)
Lemma repr_GetAll (C : Z) (kept : list string) (b : LogBuffer) :
  0 < C -> repr C kept b ->
  GetAll b = Ok (if isFull b then replicate (Z.to_nat C) ""%string else kept).
Proof.
  intros HC [Hc Hl Hs Hb Hf Hst He Hlin Hit].
  unfold GetAll.
  destruct (isFull b) eqn:Hfull.
  - symmetry in Hf. apply bool_decide_eq_true_1 in Hf.
    assert (Hse : end_ b = start b).
    { rewrite He, Hf. replace (start b + C) with (start b + 1 * C) by lia.
      rewrite Z.mod_add by lia. apply Z.mod_small; lia. }
    destruct (Z.eqb_spec (size b) 0); [lia|].
    unfold make. destruct (Z.ltb_spec (size b) 0); [lia|]. simpl.
    unfold slice. rewrite Hse.
    destruct (Z.ltb_spec (start b) 0); [lia|].
    destruct (Z.ltb_spec (start b) (start b)); [lia|].
    destruct (Z.ltb_spec (Z.of_nat (length (buffer b))) (start b)); [lia|].
    simpl. rewrite Z.sub_diag. change (Z.to_nat 0) with 0%nat.
    rewrite take_0. unfold copy. rewrite take_nil. simpl. by rewrite Hf.
  - specialize (Hlin eq_refl).
    symmetry in Hf. apply bool_decide_eq_false_1 in Hf.
    assert (Hse : end_ b = size b).
    { rewrite He, Hlin. apply Z.mod_small; lia. }
    destruct (Z.eqb_spec (size b) 0) as [Hz|Hnz].
    { destruct kept; [done|simpl in *; lia]. }
    unfold make. destruct (Z.ltb_spec (size b) 0); [lia|]. simpl.
    rewrite Hlin, Hse.
    destruct (Z.ltb_spec 0 (size b)); [|lia].
    unfold slice. simpl.
    destruct (Z.ltb_spec (size b) 0); [lia|].
    destruct (Z.ltb_spec (Z.of_nat (length (buffer b))) (size b)); [lia|].
    simpl. rewrite Z.sub_0_r.
    assert (Htake : take (Z.to_nat (size b)) (buffer b) = kept).
    { apply list_eq. intros i.
      destruct (decide (i < length kept)%nat) as [Hlt|Hge].
      - rewrite lookup_take_lt by lia.
        rewrite <- (Hit i Hlt), Hlin, Z.add_0_l, Z.mod_small by lia.
        by rewrite Nat2Z.id.
      - rewrite lookup_take_ge by lia.
        symmetry. apply lookup_ge_None_2. lia. }
    change (Z.to_nat 0) with 0%nat. rewrite drop_0, Htake. unfold copy.
    rewrite length_replicate.
    rewrite take_ge by lia.
    rewrite drop_ge by (rewrite length_replicate; lia).
    by rewrite app_nil_r.
Qed.

End WholeBuffer.

Section Calls.

Lemma runCalls_repr (C : Z) (calls : list call) (kept : list string) (b : LogBuffer) :
  0 < C -> repr C kept b ->
  exists b', runCalls b calls = Ok b' /\
             repr C (retained (Z.to_nat C) kept calls) b'.
Proof.
  intros HC. revert kept b.
  induction calls as [|[m|] rest IH]; intros kept b Hr; simpl.
  - by exists b.
  - destruct (repr_Push C kept b m HC Hr) as (b1 & -> & Hr1). simpl.
    by apply IH.
  - apply IH. by eapply repr_Clear.
Qed.

Lemma NewLogBuffer_repr (C : Z) : 0 < C -> repr C [] (NewLogBuffer C).
Proof.
  intros HC. pose proof (repr_New C) as H.
  destruct (Z.leb_spec C 0); [lia|done].
Qed.

Lemma page_all {A : Type} (kept : list A) (limit : nat) :
  (length kept <= limit)%nat -> page kept 0 limit = kept.
Proof.
  intros H. unfold page. rewrite drop_0.
  rewrite take_ge by (rewrite length_reverse; lia).
  apply reverse_involutive.
Qed.

(** The behaviour of [GetAll] after [N] pushes on a fresh buffer: right
    below capacity, [C] empty strings from capacity on. *)
Lemma GetAll_after_pushes (C : Z) (messages : list string) :
  0 < C ->
  exists b, pushAll (NewLogBuffer C) messages = Ok b /\
    GetAll b = Ok (if Z.of_nat (length messages) <? C then messages
                   else replicate (Z.to_nat C) ""%string).
Proof.
  intros HC.
  destruct (pushAll_repr C messages [] _ HC (NewLogBuffer_repr C HC)) as (b & Hp & Hr).
  exists b. split; [done|].
  rewrite (repr_GetAll C _ b HC Hr).
  simpl in Hr. destruct Hr as [_ _ Hs _ Hf _ _ _ _].
  rewrite lastn_length in Hs. rewrite Hf.
  destruct (Z.ltb_spec (Z.of_nat (length messages)) C).
  - rewrite bool_decide_eq_false_2 by lia. apply f_equal, lastn_all. lia.
  - rewrite bool_decide_eq_true_2 by lia. done.
Qed.

End Calls.

(** * Claims about the buffer *)

(** C1 (full buffer).  The claim asks [GetAll] for the [min N C] most recent
    items in push order.  At capacity 2 after pushing a, b, c the code returns
    two empty strings instead of b, c: once the buffer is full the contiguous
    branch copies the empty slice [buffer[start:end]]. *)
Theorem C1_GetAll_full_buffer_is_blank :
  (b <-- pushAll (NewLogBuffer 2) ["a"; "b"; "c"]%string ;; GetAll b)
    = Ok [""; ""]%string /\
  lastn 2 ["a"; "b"; "c"]%string = ["b"; "c"]%string.
Proof. split; reflexivity. Qed.

(** C2.  After any pushes on a fresh buffer, [Get offset limit] fails exactly
    when [offset < 0] or [limit <= 0]; otherwise it returns the page of the
    retained items: [offset] back from the newest, oldest first, of length
    [min limit (count - offset)], or nothing when that is not positive. *)
Theorem C2_Get_returns_page (c : Z) (messages : list string) (offset limit : Z) :
  exists b, pushAll (NewLogBuffer c) messages = Ok b /\
    let kept := lastn (Z.to_nat (Capacity b)) messages in
    Size b = Z.of_nat (length kept) /\
    match Get b offset limit with
    | Err e => (offset < 0 \/ limit <= 0) /\ e = Get_error
    | Ok l => 0 <= offset /\ 0 < limit /\
              l = page kept (Z.to_nat offset) (Z.to_nat limit) /\
              Z.of_nat (length l) = Z.max 0 (Z.min limit (Size b - offset))
    | Panic | OutOfFuel => False
    end.
Proof.
  set (C := if c <=? 0 then 100 else c).
  assert (HC : 0 < C) by (subst C; destruct (Z.leb_spec c 0); lia).
  destruct (pushAll_repr C messages [] _ HC (repr_New c)) as (b & Hp & Hr).
  exists b. split; [done|]. simpl in Hr.
  unfold Capacity, Size. rewrite (repr_capacity _ _ _ Hr). simpl.
  split; [apply (repr_size _ _ _ Hr)|].
  destruct (Z.ltb_spec offset 0) as [Ho|Ho].
  { unfold Get. destruct (Z.ltb_spec offset 0); [|lia]. simpl. split; [lia|done]. }
  destruct (Z.leb_spec limit 0) as [Hl|Hl].
  { unfold Get. destruct (Z.ltb_spec offset 0); [lia|].
    destruct (Z.leb_spec limit 0); [|lia]. simpl. split; [lia|done]. }
  rewrite (repr_Get C _ b offset limit HC Hr Ho Hl).
  repeat split; try lia.
  rewrite page_length, (repr_size _ _ _ Hr). lia.
Qed.

(** C3 (full buffer).  The claim equates [Get 0 C] with [GetAll] once [C]
    items were pushed.  At capacity 2 after pushing a, b, c, [Get 0 2] returns
    b, c while [GetAll] returns two empty strings. *)
Theorem C3_Get_differs_from_GetAll_when_full :
  (b <-- pushAll (NewLogBuffer 2) ["a"; "b"; "c"]%string ;; Get b 0 2)
    = Ok ["b"; "c"]%string /\
  (b <-- pushAll (NewLogBuffer 2) ["a"; "b"; "c"]%string ;; GetAll b)
    = Ok [""; ""]%string.
Proof. split; reflexivity. Qed.

(** C4.  On a buffer of capacity [C >= 1], after any calls of [Push] and
    [Clear] the count is at most [C]; a [Push] on a buffer holding [C] items
    drops the oldest item and keeps the other [C - 1] in order, followed by
    the new one; and after [C + 1] pushes on a fresh buffer exactly the first
    item is gone. *)
Theorem C4_bounded_and_fifo_eviction (C : Z) (calls : list call) (m : string)
    (first : string) (others : list string) :
  1 <= C ->
  (exists b, runCalls (NewLogBuffer C) calls = Ok b /\
     Capacity b = C /\ Size b <= C /\
     (Size b = C ->
      exists oldest rest b',
        Get b 0 C = Ok (oldest :: rest) /\
        Push b m = Ok b' /\ Size b' = C /\
        Get b' 0 C = Ok (rest ++ [m]))) /\
  (Z.of_nat (length others) = C ->
   exists b, pushAll (NewLogBuffer C) (first :: others) = Ok b /\
     Size b = C /\ Get b 0 C = Ok others).
Proof.
  intros HC1. assert (HC : 0 < C) by lia.
  split.
  - destruct (runCalls_repr C calls [] _ HC (NewLogBuffer_repr C HC)) as (b & Hrun & Hr).
    exists b. split; [done|].
    set (kept := retained (Z.to_nat C) [] calls) in *.
    unfold Capacity, Size.
    split; [apply (repr_capacity _ _ _ Hr)|].
    split; [apply (repr_bound _ _ _ Hr)|].
    intros Hfull.
    pose proof (repr_size _ _ _ Hr) as Hs.
    destruct kept as [|oldest rest] eqn:Hk; [simpl in Hs; lia|].
    destruct (repr_Push C _ b m HC Hr) as (b' & Hpush & Hr').
    assert (Hlast : lastn (Z.to_nat C) ((oldest :: rest) ++ [m]) = rest ++ [m]).
    { unfold lastn. rewrite length_app. simpl in *.
      by replace (S (length rest + 1) - Z.to_nat C)%nat with 1%nat by lia. }
    rewrite Hlast in Hr'.
    exists oldest, rest, b'.
    rewrite (repr_Get C _ b 0 C HC Hr) by lia.
    rewrite (repr_Get C _ b' 0 C HC Hr') by lia.
    rewrite !page_all by (rewrite ?length_app; simpl in *; lia).
    repeat split; try done.
    rewrite (repr_size _ _ _ Hr'), length_app. simpl in *. lia.
  - intros Hlen.
    destruct (pushAll_repr C (first :: others) [] _ HC (NewLogBuffer_repr C HC))
      as (b & Hp & Hr).
    exists b. split; [done|].
    assert (Hlast : lastn (Z.to_nat C) ([] ++ first :: others) = others).
    { unfold lastn. simpl.
      by replace (S (length others) - Z.to_nat C)%nat with 1%nat by lia. }
    rewrite Hlast in Hr.
    unfold Size. rewrite (repr_size _ _ _ Hr).
    split; [lia|].
    rewrite (repr_Get C _ b 0 C HC Hr) by lia.
    by rewrite page_all by lia.
Qed.

Lemma C4_bounded_and_fifo_eviction_witness :
  1 <= 2 /\
  ((exists b, runCalls (NewLogBuffer 2)
                [CallPush "a"; CallClear; CallPush "b"; CallPush "c"]%string = Ok b /\
     Capacity b = 2 /\ Size b <= 2 /\
     (Size b = 2 ->
      exists oldest rest b',
        Get b 0 2 = Ok (oldest :: rest) /\
        Push b "d"%string = Ok b' /\ Size b' = 2 /\
        Get b' 0 2 = Ok (rest ++ ["d"%string]))) /\
   (Z.of_nat (length ["y"; "z"]%string) = 2 ->
    exists b, pushAll (NewLogBuffer 2) ("x" :: ["y"; "z"])%string = Ok b /\
      Size b = 2 /\ Get b 0 2 = Ok ["y"; "z"]%string)).
Proof.
  split; [lia|].
  apply (C4_bounded_and_fifo_eviction 2
           [CallPush "a"; CallClear; CallPush "b"; CallPush "c"]%string
           "d"%string "x"%string ["y"; "z"]%string).
  lia.
Defined.

(** * The rule engine *)

Section Registry.

Lemma definedRuleOps_not : definedRuleOps !! "not"%string = Some op_not.
Proof. reflexivity. Qed.

Lemma definedRuleOps_or : definedRuleOps !! "or"%string = Some op_or.
Proof. reflexivity. Qed.

Lemma definedRuleOps_and : definedRuleOps !! "and"%string = Some op_and.
Proof. reflexivity. Qed.

Lemma definedRuleOps_contains : definedRuleOps !! "contains"%string = Some op_contains.
Proof. reflexivity. Qed.

Lemma definedRuleOps_cases (name : string) (op : ruleOpFn) :
  definedRuleOps !! name = Some op ->
  op = op_not \/ op = op_or \/ op = op_and \/ op = op_contains.
Proof.
  unfold definedRuleOps.
  rewrite !lookup_insert_Some, lookup_singleton_Some.
  intros [[_ <-]|[_ [[_ <-]|[_ [[_ <-]|[_ [_ <-]]]]]]]; auto.
Qed.

Lemma ruleDataToRule_value (r : Rule) : ruleDataToRule (rule_value r) = (r, None).
Proof. by destruct r. Qed.

End Registry.

Section Operators.

Variable run : runFn.
Variable arg : any.

Lemma or_loop_short_circuit (i : Z) (pre : list any) (hit : any) (later : list any) :
  Forall (decodes_to run arg (false, None)) pre ->
  decodes_to run arg (true, None) hit ->
  or_loop run i (pre ++ hit :: later) arg = Some (true, None).
Proof.
  intros Hpre (r & Hr & Hrun). revert i.
  induction Hpre as [|el pre (r' & Hr' & Hrun') _ IH]; intros i; simpl.
  - by rewrite Hr, Hrun.
  - rewrite Hr', Hrun'. apply IH.
Qed.

Lemma and_loop_short_circuit (i : Z) (pre : list any) (hit : any) (later : list any) :
  Forall (decodes_to run arg (true, None)) pre ->
  decodes_to run arg (false, None) hit ->
  and_loop run i (pre ++ hit :: later) arg = Some (false, None).
Proof.
  intros Hpre (r & Hr & Hrun). revert i.
  induction Hpre as [|el pre (r' & Hr' & Hrun') _ IH]; intros i; simpl.
  - by rewrite Hr, Hrun.
  - rewrite Hr', Hrun'. apply IH.
Qed.

Lemma or_loop_exhausted (i : Z) (els : list any) :
  Forall (decodes_to run arg (false, None)) els ->
  or_loop run i els arg = Some (false, None).
Proof.
  intros Hels. revert i.
  induction Hels as [|el els (r & Hr & Hrun) _ IH]; intros i; simpl; [done|].
  rewrite Hr, Hrun. apply IH.
Qed.

Lemma and_loop_exhausted (i : Z) (els : list any) :
  Forall (decodes_to run arg (true, None)) els ->
  and_loop run i els arg = Some (true, None).
Proof.
  intros Hels. revert i.
  induction Hels as [|el els (r & Hr & Hrun) _ IH]; intros i; simpl; [done|].
  rewrite Hr, Hrun. apply IH.
Qed.

End Operators.

Section Termination.

Lemma depth_map_index (obj : list (string * any)) (key : string) :
  (depth (map_index obj key) < depth (AObject obj))%nat.
Proof.
  unfold map_index. simpl.
  induction obj as [|[k v] obj IH]; simpl; [lia|].
  destruct (String.eqb k key); simpl in *; lia.
Qed.

Lemma depth_element (els : list any) (el : any) :
  el ∈ els -> (depth el < depth (AArray els))%nat.
Proof.
  simpl. induction 1; simpl; lia.
Qed.

Lemma ruleDataToRule_depth (data : any) (d : Rule) :
  ruleDataToRule data = (d, None) -> (depth (Data d) < depth data)%nat.
Proof.
  destruct data as [| | | | |obj]; try discriminate.
  unfold ruleDataToRule.
  destruct (map_index obj "Op"); try discriminate.
  intros [= <-]. apply depth_map_index.
Qed.

(** An operation of the registry ends when the nested calls it can make end. *)
Lemma or_loop_ends (run : runFn) (arg : any) (els : list any) (i : Z) :
  (forall el d, el ∈ els -> ruleDataToRule el = (d, None) -> is_Some (run d arg)) ->
  is_Some (or_loop run i els arg).
Proof.
  revert i. induction els as [|el els IH]; intros i Hrun; simpl; [done|].
  destruct (ruleDataToRule el) as [d [e|]] eqn:Hd; [done|].
  destruct (Hrun el d) as [[ret [e|]] ->]; [apply elem_of_cons; by left | done | by destruct ret | ].
  destruct ret; [done|].
  apply IH. intros el' d' Hin. apply Hrun. apply elem_of_cons. by right.
Qed.

Lemma and_loop_ends (run : runFn) (arg : any) (els : list any) (i : Z) :
  (forall el d, el ∈ els -> ruleDataToRule el = (d, None) -> is_Some (run d arg)) ->
  is_Some (and_loop run i els arg).
Proof.
  revert i. induction els as [|el els IH]; intros i Hrun; simpl; [done|].
  destruct (ruleDataToRule el) as [d [e|]] eqn:Hd; [done|].
  destruct (Hrun el d) as [[ret [e|]] ->]; [apply elem_of_cons; by left | done | by destruct ret | ].
  destruct ret; [|done].
  apply IH. intros el' d' Hin. apply Hrun. apply elem_of_cons. by right.
Qed.

(** With fuel above the depth of its data, a rule over [definedRuleOps]
    ends with a verdict. *)
Lemma Run_total (fuel : nat) (r : Rule) (arg : any) :
  (depth (Data r) < fuel)%nat -> is_Some (Run fuel definedRuleOps r arg).
Proof.
  revert r. induction fuel as [|fuel IH]; intros r Hd; [lia|]. simpl.
  destruct (definedRuleOps !! Op r) as [op|] eqn:Hop; [|done].
  destruct (definedRuleOps_cases _ _ Hop) as [-> | [-> | [-> | ->]]].
  - unfold op_not.
    destruct (ruleDataToRule (Data r)) as [d [e|]] eqn:Hdec; [done|].
    apply ruleDataToRule_depth in Hdec.
    destruct (IH d ltac:(lia)) as [[ret err] ->]. done.
  - unfold op_or. destruct (Data r) as [| | | |els|] eqn:Hdata; try done.
    apply or_loop_ends. intros el d Hin Hdec. apply IH.
    apply ruleDataToRule_depth in Hdec. apply depth_element in Hin. lia.
  - unfold op_and. destruct (Data r) as [| | | |els|] eqn:Hdata; try done.
    apply and_loop_ends. intros el d Hin Hdec. apply IH.
    apply ruleDataToRule_depth in Hdec. apply depth_element in Hin. lia.
  - unfold op_contains. destruct arg; try done. by destruct (Data r).
Qed.

Lemma or_loop_extends (run run' : runFn) (arg : any) (els : list any) (i : Z) (v : verdict) :
  extends run run' -> or_loop run i els arg = Some v -> or_loop run' i els arg = Some v.
Proof.
  intros Hext. revert i. induction els as [|el els IH]; intros i; simpl; [done|].
  destruct (ruleDataToRule el) as [d [e|]]; [done|].
  destruct (run d arg) as [[ret err]|] eqn:Hrun; [|done].
  rewrite (Hext _ _ _ Hrun).
  destruct err; [done|]. destruct ret; [done|]. apply IH.
Qed.

Lemma and_loop_extends (run run' : runFn) (arg : any) (els : list any) (i : Z) (v : verdict) :
  extends run run' -> and_loop run i els arg = Some v -> and_loop run' i els arg = Some v.
Proof.
  intros Hext. revert i. induction els as [|el els IH]; intros i; simpl; [done|].
  destruct (ruleDataToRule el) as [d [e|]]; [done|].
  destruct (run d arg) as [[ret err]|] eqn:Hrun; [|done].
  rewrite (Hext _ _ _ Hrun).
  destruct err; [done|]. destruct ret; [|done]. apply IH.
Qed.

Lemma Run_step (fuel : nat) :
  extends (Run fuel definedRuleOps) (Run (S fuel) definedRuleOps).
Proof.
  induction fuel as [|fuel IH]; intros r arg v; [done|].
  intros Hrun. simpl in Hrun. change (Run (S (S fuel)) definedRuleOps r arg)
    with (match definedRuleOps !! Op r with
          | None => Some (false, Some (fmt_Errorf "run rule op %q not found" [FStr (Op r)] None))
          | Some op => op (Run (S fuel) definedRuleOps) (Data r) arg
          end).
  destruct (definedRuleOps !! Op r) as [op|] eqn:Hop; [|done].
  destruct (definedRuleOps_cases _ _ Hop) as [-> | [-> | [-> | ->]]].
  - unfold op_not in *.
    destruct (ruleDataToRule (Data r)) as [d [e|]]; [done|].
    destruct (Run fuel definedRuleOps d arg) as [[ret err]|] eqn:Hd; [|done].
    by rewrite (IH _ _ _ Hd).
  - unfold op_or in *. destruct (Data r); try done.
    by eapply or_loop_extends.
  - unfold op_and in *. destruct (Data r); try done.
    by eapply and_loop_extends.
  - done.
Qed.

(** More fuel does not change a verdict. *)
Lemma Run_more_fuel (fuel fuel' : nat) (r : Rule) (arg : any) (v : verdict) :
  (fuel <= fuel')%nat ->
  Run fuel definedRuleOps r arg = Some v -> Run fuel' definedRuleOps r arg = Some v.
Proof.
  induction 1 as [|fuel' _ IH]; [done|].
  intros Hrun. by apply Run_step, IH.
Qed.

End Termination.

(** * Claims about the rule engine *)

(** C5.  [and] over no rules is true and [or] over no rules is false; [or]
    ends with true at the first element that is true and [and] ends with
    false at the first element that is false, whatever follows: the later
    elements need not be rules, may fail, or may need more fuel than there
    is, so they are not run. *)
Theorem C5_vacuous_and_short_circuit (fuel : nat) (line : any)
    (falses trues : list any) (firstTrue firstFalse : any) (later : list any) :
  Forall (decodes_to (Run fuel definedRuleOps) line (false, None)) falses ->
  decodes_to (Run fuel definedRuleOps) line (true, None) firstTrue ->
  Forall (decodes_to (Run fuel definedRuleOps) line (true, None)) trues ->
  decodes_to (Run fuel definedRuleOps) line (false, None) firstFalse ->
  Run (S fuel) definedRuleOps (mkRule "and" (AArray [])) line = Some (true, None) /\
  Run (S fuel) definedRuleOps (mkRule "or" (AArray [])) line = Some (false, None) /\
  Run (S fuel) definedRuleOps
      (mkRule "or" (AArray (falses ++ firstTrue :: later))) line = Some (true, None) /\
  Run (S fuel) definedRuleOps
      (mkRule "and" (AArray (trues ++ firstFalse :: later))) line = Some (false, None).
Proof.
  intros Hfalses HfirstTrue Htrues HfirstFalse.
  repeat split.
  - change (op_or (Run fuel definedRuleOps)
                  (AArray (falses ++ firstTrue :: later)) line = Some (true, None)).
    by apply or_loop_short_circuit.
  - change (op_and (Run fuel definedRuleOps)
                   (AArray (trues ++ firstFalse :: later)) line = Some (false, None)).
    by apply and_loop_short_circuit.
Qed.

Lemma C5_vacuous_and_short_circuit_witness :
  let line := AString "disk ERROR" in
  let hasERROR := rule_value (mkRule "contains" (AString "ERROR")) in
  let hasWARN := rule_value (mkRule "contains" (AString "WARN")) in
  let broken := rule_value (mkRule "no such op" ANil) in
  Run 2 definedRuleOps (mkRule "and" (AArray [])) line = Some (true, None) /\
  Run 2 definedRuleOps (mkRule "or" (AArray [])) line = Some (false, None) /\
  Run 2 definedRuleOps
      (mkRule "or" (AArray ([hasWARN] ++ hasERROR :: [broken; ANil]))) line
    = Some (true, None) /\
  Run 2 definedRuleOps
      (mkRule "and" (AArray ([hasERROR] ++ hasWARN :: [broken; ANil]))) line
    = Some (false, None).
Proof.
  intros line hasERROR hasWARN broken.
  apply (C5_vacuous_and_short_circuit 1 line [hasWARN] [hasERROR] hasERROR hasWARN
           [broken; ANil]).
  - repeat constructor.
    exists (mkRule "contains" (AString "WARN")). split; reflexivity.
  - exists (mkRule "contains" (AString "ERROR")). split; reflexivity.
  - repeat constructor.
    exists (mkRule "contains" (AString "ERROR")). split; reflexivity.
  - exists (mkRule "contains" (AString "WARN")). split; reflexivity.
Defined.

(** C6.  [not] over a nested rule returns the negation of the rule's
    boolean when the rule returns no error; when the rule returns an error,
    [not] returns that same error, as it is (not wrapped, not turned into a
    result without error). *)
Theorem C6_not_negates_or_propagates_error (fuel : nat) (data line : any) (R : Rule)
    (ret : bool) (err : option error) :
  ruleDataToRule data = (R, None) ->
  Run fuel definedRuleOps R line = Some (ret, err) ->
  match err with
  | None => Run (S fuel) definedRuleOps (mkRule "not" data) line = Some (negb ret, None)
  | Some e => exists b, Run (S fuel) definedRuleOps (mkRule "not" data) line = Some (b, Some e)
  end.
Proof.
  intros Hdec Hrun.
  change (Run (S fuel) definedRuleOps (mkRule "not" data) line)
    with (op_not (Run fuel definedRuleOps) data line).
  unfold op_not. rewrite Hdec, Hrun.
  destruct err as [e|]; [by eexists | done].
Qed.

Lemma C6_not_negates_or_propagates_error_witness :
  Run 2 definedRuleOps
      (mkRule "not" (rule_value (mkRule "contains" (AString "ERROR"))))
      (AString "disk ERROR") = Some (negb true, None) /\
  exists b,
    Run 2 definedRuleOps (mkRule "not" (rule_value (mkRule "no such op" ANil)))
        (AString "disk ERROR")
      = Some (b, Some (fmt_Errorf "run rule op %q not found" [FStr "no such op"] None)).
Proof.
  split.
  - apply (C6_not_negates_or_propagates_error 1
             (rule_value (mkRule "contains" (AString "ERROR"))) (AString "disk ERROR")
             (mkRule "contains" (AString "ERROR")) true None); reflexivity.
  - apply (C6_not_negates_or_propagates_error 1
             (rule_value (mkRule "no such op" ANil)) (AString "disk ERROR")
             (mkRule "no such op" ANil) false
             (Some (fmt_Errorf "run rule op %q not found" [FStr "no such op"] None)));
      reflexivity.
Defined.

(** * The directory scan *)

Section Scan.

Variable env : Env.
Variable fuel : nat.
Variable dirPath : string.

Lemma parseMsgs_map (visited : list string) (ret : list record) :
  parseMsgs env visited ret = ret ++ (parseMsg env <$> visited).
Proof.
  revert ret. induction visited as [|msg rest IH]; intros ret; simpl.
  - by rewrite app_nil_r.
  - by rewrite IH, <- app_assoc.
Qed.

Lemma pushLines_pushAll (buf : LogBuffer) (lines : File) :
  pushLines buf lines = pushAll buf lines.
Proof.
  revert buf. induction lines as [|line rest IH]; intros buf; simpl; [done|].
  destruct (Push buf line); simpl; auto.
Qed.

Lemma matchLines_app (r : Rule) (buf : LogBuffer) (l1 l2 : File) :
  matchLines fuel r buf (l1 ++ l2) =
  (buf' <-- matchLines fuel r buf l1 ;; matchLines fuel r buf' l2).
Proof.
  revert buf. induction l1 as [|line rest IH]; intros buf; simpl; [done|].
  destruct (Run fuel definedRuleOps r (AString line)) as [[[|] [e|]]|];
    simpl; try done.
  destruct (Push buf line); simpl; auto.
Qed.

Lemma scanEntries_app (rule : option Rule) (buf : LogBuffer) (d1 d2 : list DirEntry) :
  scanEntries env fuel dirPath rule buf (d1 ++ d2) =
  (buf' <-- scanEntries env fuel dirPath rule buf d1 ;;
   scanEntries env fuel dirPath rule buf' d2).
Proof.
  revert buf. induction d1 as [|de rest IH]; intros buf; simpl; [done|].
  destruct (IsDir de); [by apply IH|].
  destruct (HasSuffix (Name de) ".log"); simpl; [|by apply IH].
  destruct (os_Open env (filepath_Join env dirPath (Name de))) as [f|e]; [|done].
  destruct (scanFile fuel rule buf f); simpl; auto.
Qed.

Lemma matchLines_Ok_judged (r : Rule) (buf buf' : LogBuffer) (f : File) :
  matchLines fuel r buf f = Ok buf' -> judged fuel r f.
Proof.
  revert buf. induction f as [|line rest IH]; intros buf; simpl; [by constructor|].
  destruct (Run fuel definedRuleOps r (AString line)) as [[[|] [e|]]|] eqn:Hrun;
    simpl; try done.
  - intros H. constructor; [by exists true|].
    destruct (Push buf line); simpl in H; try done. by eapply IH.
  - intros H. constructor; [by exists false|]. by eapply IH.
Qed.

Lemma scanEntries_Ok_passes (rule : option Rule) (buf buf' : LogBuffer) (d : list DirEntry) :
  scanEntries env fuel dirPath rule buf d = Ok buf' -> Forall (passes env fuel dirPath rule) d.
Proof.
  revert buf. induction d as [|de rest IH]; intros buf; simpl; [by constructor|].
  intros H.
  destruct (IsDir de) eqn:Hdir.
  { constructor; [intros [? _]; congruence | by eapply IH]. }
  destruct (HasSuffix (Name de) ".log") eqn:Hsuf; simpl in H.
  2:{ constructor; [intros [_ ?]; congruence | by eapply IH]. }
  destruct (os_Open env (filepath_Join env dirPath (Name de))) as [f|e] eqn:Hopen; [|done].
  destruct (scanFile fuel rule buf f) as [buf1| | |] eqn:Hfile; simpl in H; try done.
  constructor; [|by eapply IH].
  intros _. exists f. split; [done|].
  intros r ->. by eapply matchLines_Ok_judged.
Qed.

Lemma matchLines_ends_well (C : Z) (r : Rule) (f : File) (kept : list string) (buf : LogBuffer) :
  0 < C -> (depth (Data r) < fuel)%nat -> repr C kept buf ->
  ends_well C (matchLines fuel r buf f).
Proof.
  intros HC Hfuel. revert kept buf.
  induction f as [|line rest IH]; intros kept buf Hr; simpl; [by exists kept|].
  destruct (Run_total fuel r (AString line) Hfuel) as [[[|] [e|]] ->]; simpl; try done.
  - destruct (repr_Push C kept buf line HC Hr) as (b1 & -> & Hr1). simpl.
    by eapply IH.
  - by eapply IH.
Qed.

Lemma scanFile_ends_well (C : Z) (rule : option Rule) (f : File) (kept : list string)
    (buf : LogBuffer) :
  0 < C -> enough_fuel fuel rule -> repr C kept buf ->
  ends_well C (scanFile fuel rule buf f).
Proof.
  intros HC Hfuel Hr. destruct rule as [r|]; simpl.
  - eapply matchLines_ends_well; eauto.
  - rewrite pushLines_pushAll.
    destruct (pushAll_repr C f kept buf HC Hr) as (b' & -> & Hr'). by eexists.
Qed.

Lemma scanEntries_ends_well (C : Z) (rule : option Rule) (d : list DirEntry)
    (kept : list string) (buf : LogBuffer) :
  0 < C -> enough_fuel fuel rule -> repr C kept buf ->
  ends_well C (scanEntries env fuel dirPath rule buf d).
Proof.
  intros HC Hfuel. revert kept buf.
  induction d as [|de rest IH]; intros kept buf Hr; simpl; [by exists kept|].
  destruct (IsDir de); [by eapply IH|].
  destruct (HasSuffix (Name de) ".log"); simpl; [|by eapply IH].
  destruct (os_Open env (filepath_Join env dirPath (Name de))) as [f|e]; [|done].
  pose proof (scanFile_ends_well C rule f kept buf HC Hfuel Hr) as Hfile.
  destruct (scanFile fuel rule buf f) as [buf1| | |]; simpl in *; try done.
  destruct Hfile as [kept1 Hr1]. by eapply IH.
Qed.

(** The capacity the scan buffer has: [limit + offset], or 100 when that is
    not positive. *)
Lemma scanDir_ends_well (rule : option Rule) (limit offset : Z) :
  enough_fuel fuel rule ->
  ends_well (if int_add limit offset <=? 0 then 100 else int_add limit offset)
            (scanDir env fuel dirPath rule limit offset).
Proof.
  intros Hfuel. unfold scanDir.
  destruct (os_ReadDir env dirPath) as [d [e|]]; [done|].
  eapply scanEntries_ends_well; [|done|apply repr_New].
  destruct (Z.leb_spec (int_add limit offset) 0); lia.
Qed.

(** With enough fuel [processDir] returns records or an error. *)
Lemma processDir_returns (rule : option Rule) (limit offset : Z) :
  enough_fuel fuel rule ->
  (exists recs, processDir env fuel dirPath rule limit offset = Ok recs) \/
  (exists e, processDir env fuel dirPath rule limit offset = Err e).
Proof.
  intros Hfuel. unfold processDir.
  pose proof (scanDir_ends_well rule limit offset Hfuel) as Hscan.
  set (C := if int_add limit offset <=? 0 then 100 else int_add limit offset) in *.
  assert (HC : 0 < C) by (subst C; destruct (Z.leb_spec (int_add limit offset) 0); lia).
  destruct (scanDir env fuel dirPath rule limit offset) as [buf|e| |]; simpl in *;
    try done; [|right; by eexists].
  destruct Hscan as [kept Hr].
  destruct (Z.ltb_spec offset 0) as [Ho|Ho].
  { right. unfold Get. destruct (Z.ltb_spec offset 0); [|lia]. simpl. by eexists. }
  destruct (Z.leb_spec limit 0) as [Hl|Hl].
  { right. unfold Get. destruct (Z.ltb_spec offset 0); [lia|].
    destruct (Z.leb_spec limit 0); [|lia]. simpl. by eexists. }
  left. rewrite (repr_Get C kept buf offset limit HC Hr Ho Hl). simpl. by eexists.
Qed.

End Scan.

Section Capacity.

Lemma Push_capacity (b b' : LogBuffer) (m : string) :
  Push b m = Ok b' ->
  capacity b' = capacity b /\ length (buffer b') = length (buffer b).
Proof.
  unfold Push, store, go_rem.
  destruct ((end_ b <? 0) || (Z.of_nat (length (buffer b)) <=? end_ b)); [done|].
  destruct (capacity b =? 0); simpl; [by destruct (isFull b)|].
  destruct (isFull b); simpl; intros [= <-]; simpl; by rewrite length_insert.
Qed.

Lemma pushLines_capacity (f : File) (b b' : LogBuffer) :
  pushLines b f = Ok b' ->
  capacity b' = capacity b /\ length (buffer b') = length (buffer b).
Proof.
  revert b. induction f as [|line rest IH]; intros b; simpl; [by intros [= <-]|].
  destruct (Push b line) as [b1| | |] eqn:Hp; simpl; try done.
  intros H. apply IH in H. apply Push_capacity in Hp.
  destruct H, Hp. split; congruence.
Qed.

Lemma matchLines_capacity (fuel : nat) (r : Rule) (f : File) (b b' : LogBuffer) :
  matchLines fuel r b f = Ok b' ->
  capacity b' = capacity b /\ length (buffer b') = length (buffer b).
Proof.
  revert b. induction f as [|line rest IH]; intros b; simpl; [by intros [= <-]|].
  destruct (Run fuel definedRuleOps r (AString line)) as [[[|] [e|]]|]; simpl; try done;
    [|by apply IH].
  destruct (Push b line) as [b1| | |] eqn:Hp; simpl; try done.
  intros H. apply IH in H. apply Push_capacity in Hp.
  destruct H, Hp. split; congruence.
Qed.

Lemma scanEntries_capacity (env : Env) (fuel : nat) (dirPath : string) (rule : option Rule)
    (d : list DirEntry) (b b' : LogBuffer) :
  scanEntries env fuel dirPath rule b d = Ok b' ->
  capacity b' = capacity b /\ length (buffer b') = length (buffer b).
Proof.
  revert b. induction d as [|de rest IH]; intros b; simpl; [by intros [= <-]|].
  destruct (IsDir de); [by apply IH|].
  destruct (HasSuffix (Name de) ".log"); simpl; [|by apply IH].
  destruct (os_Open env (filepath_Join env dirPath (Name de))) as [f|e]; [|done].
  destruct (scanFile fuel rule b f) as [b1| | |] eqn:Hf; simpl; try done.
  intros H. apply IH in H.
  assert (capacity b1 = capacity b /\ length (buffer b1) = length (buffer b)) as [? ?].
  { destruct rule; simpl in Hf;
      [by eapply matchLines_capacity | by eapply pushLines_capacity]. }
  destruct H. split; congruence.
Qed.

Lemma int_add_exact (a b : Z) :
  - 2 ^ 63 <= a + b < 2 ^ 63 -> int_add a b = a + b.
Proof.
  intros H. unfold int_add. rewrite Z.mod_small; lia.
Qed.

End Capacity.

(** * Claims about the directory scan *)

(** C7.  [processDir] returns an error and no records as soon as the
    directory cannot be read, a file cannot be opened, or the rule fails on
    a line: the error of [os.ReadDir] or [os.Open] as it is, the error of the
    rule wrapped with the line.  The buffer filled from the entries and
    lines before ([buf], [buf']) is dropped.  Conversely records are only
    returned when every file read was opened and every line judged without
    an error. *)
Theorem C7_errors_abort_processDir (env : Env) (fuel : nat) (dirPath : string)
    (rule : option Rule) (limit offset : Z) :
  (forall d e,
     os_ReadDir env dirPath = (d, Some e) ->
     processDir env fuel dirPath rule limit offset = Err e) /\
  (forall pre de post buf e,
     os_ReadDir env dirPath = (pre ++ de :: post, None) ->
     scanEntries env fuel dirPath rule (NewLogBuffer (int_add limit offset)) pre = Ok buf ->
     eligible de ->
     os_Open env (filepath_Join env dirPath (Name de)) = inr e ->
     processDir env fuel dirPath rule limit offset = Err e) /\
  (forall r pre de post buf lpre line lpost buf' ret e,
     rule = Some r ->
     os_ReadDir env dirPath = (pre ++ de :: post, None) ->
     scanEntries env fuel dirPath rule (NewLogBuffer (int_add limit offset)) pre = Ok buf ->
     eligible de ->
     os_Open env (filepath_Join env dirPath (Name de)) = inl (lpre ++ line :: lpost) ->
     matchLines fuel r buf lpre = Ok buf' ->
     Run fuel definedRuleOps r (AString line) = Some (ret, Some e) ->
     processDir env fuel dirPath rule limit offset = Err (line_error line e) /\
     Unwrap (line_error line e) = Some e) /\
  (forall recs,
     processDir env fuel dirPath rule limit offset = Ok recs ->
     exists d, os_ReadDir env dirPath = (d, None) /\
               Forall (passes env fuel dirPath rule) d).
Proof.
  split; [|split; [|split]].
  - intros d e Hread. unfold processDir, scanDir. by rewrite Hread.
  - intros pre de post buf e Hread Hpre [Hdir Hsuf] Hopen.
    unfold processDir, scanDir. rewrite Hread, scanEntries_app, Hpre. simpl.
    by rewrite Hdir, Hsuf, Hopen.
  - intros r pre de post buf lpre line lpost buf' ret e
      -> Hread Hpre [Hdir Hsuf] Hopen Hlines Hrun.
    split; [|done].
    unfold processDir, scanDir. rewrite Hread, scanEntries_app, Hpre. simpl.
    rewrite Hdir, Hsuf, Hopen. simpl.
    rewrite matchLines_app, Hlines. simpl. rewrite Hrun. by destruct ret.
  - intros recs. unfold processDir, scanDir.
    destruct (os_ReadDir env dirPath) as [d [e|]]; [done|].
    destruct (scanEntries env fuel dirPath rule (NewLogBuffer (int_add limit offset)) d)
      as [buf| | |] eqn:Hscan; simpl; try done.
    intros _. exists d. split; [done|]. by eapply scanEntries_Ok_passes.
Qed.

Lemma C7_errors_abort_processDir_witness :
  processDir demo_env 0 "broken" None 10 0
    = Err (os_Error "open" "broken/gone.log" "permission denied") /\
  processDir demo_env 1 "logs" (Some (mkRule "no such op" ANil)) 10 0
    = Err (line_error "a1"
             (fmt_Errorf "run rule op %q not found" [FStr "no such op"] None)).
Proof.
  split.
  - destruct (C7_errors_abort_processDir demo_env 0 "broken" None 10 0) as (_ & Hopen & _).
    eapply (Hopen [mkDirEntry "c.log" false]
                  (mkDirEntry "gone.log" false) []); [reflexivity|reflexivity| |reflexivity].
    split; reflexivity.
  - destruct (C7_errors_abort_processDir demo_env 1 "logs"
                (Some (mkRule "no such op" ANil)) 10 0) as (_ & _ & Hline & _).
    eapply (Hline (mkRule "no such op" ANil) [] (mkDirEntry "a.log" false)
                  [mkDirEntry "b.log" false] _ [] "a1"%string ["a2"; "a3"]%string _ false);
      [reflexivity|reflexivity|reflexivity| |reflexivity|reflexivity|reflexivity].
    split; reflexivity.
Defined.

(** C8.  [processDir] returns records exactly when the scan ends with a
    buffer and the single [Get offset limit] on it returns a page; the records
    are then those of the page read backwards (newest first), each line as
    its decoded mapping, or as the one-field record [message] with the raw
    line when decoding fails, which never makes the call fail. *)
Theorem C8_records_are_reversed_page (env : Env) (fuel : nat) (dirPath : string)
    (rule : option Rule) (limit offset : Z) (recs : list record) :
  processDir env fuel dirPath rule limit offset = Ok recs <->
  exists buf page,
    scanDir env fuel dirPath rule limit offset = Ok buf /\
    Get buf offset limit = Ok page /\
    recs = (parseMsg env <$> reverse page) /\
    Forall2 (fun line rec =>
               match json_Unmarshal env line with
               | Some decoded => rec = decoded
               | None => rec = {[ "message"%string := AString line ]}
               end) (reverse page) recs.
Proof.
  unfold processDir. split.
  - destruct (scanDir env fuel dirPath rule limit offset) as [buf| | |]; simpl; try done.
    destruct (Get buf offset limit) as [page| | |] eqn:Hget; simpl; try done.
    rewrite parseMsgs_map. simpl. intros [= <-].
    exists buf, page. do 3 (split; [done|]).
    apply Forall2_fmap_r, Forall_Forall2_diag, Forall_forall.
    intros line _. unfold parseMsg, compose. by destruct (json_Unmarshal env line).
  - intros (buf & page & Hscan & Hget & -> & _).
    rewrite Hscan. simpl. rewrite Hget. simpl.
    by rewrite parseMsgs_map.
Qed.

Lemma C8_records_are_reversed_page_witness :
  exists buf page,
    scanDir demo_env 0 "mixed" None 5 0 = Ok buf /\
    Get buf 0 5 = Ok page /\
    [ {[ "message"%string := AString "plain text" ]}; ∅ ] = (parseMsg demo_env <$> reverse page) /\
    Forall2 (fun line rec =>
               match json_Unmarshal demo_env line with
               | Some decoded => rec = decoded
               | None => rec = {[ "message"%string := AString line ]}
               end) (reverse page) [ {[ "message"%string := AString "plain text" ]}; ∅ ].
Proof.
  apply (proj1 (C8_records_are_reversed_page demo_env 0 "mixed" None 5 0
                  [ {[ "message"%string := AString "plain text" ]}; ∅ ])).
  vm_compute. reflexivity.
Defined.

(** C9, as stated, on the directory [logs] ([a.log] with a1, a2, a3 and
    [b.log] with b1, b2, b3), no rule, limit 3, offset 3: the three lines
    returned are those visited first, but newest first (a3, a2, a1), not in
    chronological order (a1, a2, a3). *)
Lemma C9_page_is_not_chronological :
  processDir demo_env 0 "logs" None 3 3
    = Ok (parseMsg demo_env <$> ["a3"; "a2"; "a1"]%string) /\
  processDir demo_env 0 "logs" None 3 3
    <> Ok (parseMsg demo_env <$> ["a1"; "a2"; "a3"]%string).
Proof.
  split; [reflexivity|].
  intros H. vm_compute in H. discriminate H.
Qed.

(** C9, amended.  For a directory of two log files of three lines each, no
    rule, limit 3 and offset 3, [processDir] returns the three lines visited
    first (those of the first file), skipping the three visited last, in
    reverse order of visit: newest first. *)
Theorem C9_second_page_newest_first (env : Env) (fuel : nat) (dirPath : string)
    (e1 e2 : DirEntry) (a1 a2 a3 b1 b2 b3 : string) :
  os_ReadDir env dirPath = ([e1; e2], None) ->
  eligible e1 -> eligible e2 ->
  os_Open env (filepath_Join env dirPath (Name e1)) = inl [a1; a2; a3] ->
  os_Open env (filepath_Join env dirPath (Name e2)) = inl [b1; b2; b3] ->
  processDir env fuel dirPath None 3 3 = Ok (parseMsg env <$> [a3; a2; a1]).
Proof.
  intros Hread [Hdir1 Hsuf1] [Hdir2 Hsuf2] Hopen1 Hopen2.
  unfold processDir, scanDir. rewrite Hread. simpl scanEntries.
  rewrite Hdir1, Hsuf1, Hdir2, Hsuf2, Hopen1. simpl negb. cbv iota.
  change (int_add 3 3) with 6.
  destruct (pushAll_repr 6 [a1; a2; a3] [] _ ltac:(lia) (NewLogBuffer_repr 6 ltac:(lia)))
    as (buf1 & Hp1 & Hr1).
  simpl scanFile. rewrite pushLines_pushAll, Hp1. simpl rbind.
  rewrite Hopen2. simpl scanFile.
  destruct (pushAll_repr 6 [b1; b2; b3] _ _ ltac:(lia) Hr1) as (buf2 & Hp2 & Hr2).
  rewrite pushLines_pushAll, Hp2. simpl rbind.
  rewrite (repr_Get 6 _ buf2 3 3 ltac:(lia) Hr2) by lia.
  reflexivity.
Qed.

Lemma C9_second_page_newest_first_witness :
  processDir demo_env 0 "logs" None 3 3
    = Ok (parseMsg demo_env <$> ["a3"; "a2"; "a1"]%string).
Proof.
  apply (C9_second_page_newest_first demo_env 0 "logs"
           (mkDirEntry "a.log" false) (mkDirEntry "b.log" false)
           "a1" "a2" "a3" "b1" "b2" "b3"%string).
  - reflexivity.
  - split; reflexivity.
  - split; reflexivity.
  - reflexivity.
  - reflexivity.
Defined.

(** C10.  [NewLogBuffer] with a capacity that is not positive returns a
    buffer of capacity 100 (with 100 slots); so when [limit + offset], as the
    64-bit sum the code computes, is not positive, the buffer [processDir]
    scans into has capacity 100, from its creation to the end of the scan. *)
Theorem C10_default_capacity (c : Z) (env : Env) (fuel : nat) (dirPath : string)
    (rule : option Rule) (limit offset : Z) :
  c <= 0 ->
  int_add limit offset <= 0 ->
  (Capacity (NewLogBuffer c) = 100 /\ length (buffer (NewLogBuffer c)) = 100%nat) /\
  Capacity (NewLogBuffer (int_add limit offset)) = 100 /\
  (forall buf,
     scanDir env fuel dirPath rule limit offset = Ok buf ->
     Capacity buf = 100 /\ length (buffer buf) = 100%nat).
Proof.
  intros Hc Hsum.
  assert (Hnew : forall k, k <= 0 ->
            Capacity (NewLogBuffer k) = 100 /\ length (buffer (NewLogBuffer k)) = 100%nat).
  { intros k Hk. unfold Capacity, NewLogBuffer. simpl.
    destruct (Z.leb_spec k 0); [|lia]. by rewrite length_replicate. }
  split; [by apply Hnew|]. split; [by apply Hnew|].
  intros buf. unfold scanDir.
  destruct (os_ReadDir env dirPath) as [d [e|]]; [done|].
  intros Hscan. apply scanEntries_capacity in Hscan as [Hcap Hlen].
  destruct (Hnew _ Hsum) as [Hcap0 Hlen0]. unfold Capacity in *.
  split; congruence.
Qed.

Lemma C10_default_capacity_witness :
  (Capacity (NewLogBuffer (-5)) = 100 /\ length (buffer (NewLogBuffer (-5))) = 100%nat) /\
  Capacity (NewLogBuffer (int_add 0 0)) = 100 /\
  (forall buf,
     scanDir demo_env 0 "logs" None 0 0 = Ok buf ->
     Capacity buf = 100 /\ length (buffer buf) = 100%nat).
Proof.
  apply (C10_default_capacity (-5) demo_env 0 "logs" None 0 0).
  - lia.
  - vm_compute. discriminate.
Defined.

(** * Checks of the string predicates on the spec's examples *)

Example Contains_is_case_sensitive :
  Contains "Error: disk full" "Err" = true /\ Contains "error: disk full" "Err" = false.
Proof. split; reflexivity. Qed.

Example HasSuffix_log :
  HasSuffix "a.log" ".log" = true /\ HasSuffix "alog" ".log" = false /\
  HasSuffix ".log" ".log" = true /\ HasSuffix "a.log.gz" ".log" = false.
Proof. repeat split; reflexivity. Qed.

(** * Further properties of the buffer *)

Section BufferFacts.

(** The capacity [NewLogBuffer c] settles on. *)
Lemma NewLogBuffer_capacity_pos (c : Z) : 0 < (if c <=? 0 then 100 else c).
Proof. destruct (Z.leb_spec c 0); lia. Qed.

(** [Get] on a represented buffer, for all arguments. *)
Lemma repr_Get_any (C : Z) (kept : list string) (b : LogBuffer) (offset limit : Z) :
  0 < C -> repr C kept b ->
  Get b offset limit =
    if (offset <? 0) || (limit <=? 0) then Err Get_error
    else Ok (page kept (Z.to_nat offset) (Z.to_nat limit)).
Proof.
  intros HC Hr.
  destruct (Z.ltb_spec offset 0) as [Ho|Ho]; simpl.
  { unfold Get. by destruct (Z.ltb_spec offset 0); [|lia]. }
  destruct (Z.leb_spec limit 0) as [Hl|Hl].
  { unfold Get. destruct (Z.ltb_spec offset 0); [lia|].
    by destruct (Z.leb_spec limit 0); [|lia]. }
  by apply (repr_Get C).
Qed.

Lemma page_tiles {A : Type} (kept : list A) (offset l1 l2 : nat) :
  page kept offset (l1 + l2) = page kept (offset + l1) l2 ++ page kept offset l1.
Proof.
  unfold page.
  rewrite <- (take_take_drop (drop offset (reverse kept)) l1 l2).
  by rewrite reverse_app, drop_drop.
Qed.

Lemma page_beyond {A : Type} (kept : list A) (offset limit : nat) :
  (length kept <= offset)%nat -> page kept offset limit = [].
Proof.
  intros H. unfold page.
  rewrite drop_ge by (rewrite length_reverse; lia).
  by rewrite take_nil.
Qed.

Lemma retained_app (n : nat) (kept : list string) (c1 c2 : list call) :
  retained n kept (c1 ++ c2) = retained n (retained n kept c1) c2.
Proof.
  revert kept. induction c1 as [|[m|] c1 IH]; intros kept; simpl; auto.
Qed.

Lemma retained_pushes (n : nat) (kept messages : list string) :
  (length kept <= n)%nat ->
  retained n kept (CallPush <$> messages) = lastn n (kept ++ messages).
Proof.
  revert kept. induction messages as [|m rest IH]; intros kept Hlen; simpl.
  - by rewrite app_nil_r, lastn_all.
  - rewrite IH by (rewrite lastn_length; lia).
    rewrite lastn_app_lastn. by rewrite <- app_assoc.
Qed.

Lemma runCalls_pushes (b : LogBuffer) (messages : list string) :
  runCalls b (CallPush <$> messages) = pushAll b messages.
Proof.
  revert b. induction messages as [|m rest IH]; intros b; simpl; [done|].
  destruct (Push b m); simpl; auto.
Qed.

End BufferFacts.

(** X1.  After [N] pushes on [NewLogBuffer c] the capacity is [c] (100 when
    [c <= 0]) and [Size] is [min N capacity]: pushes never panic and the
    count saturates at the capacity. *)
Theorem Size_after_pushes (c : Z) (messages : list string) :
  exists b, pushAll (NewLogBuffer c) messages = Ok b /\
    Capacity b = (if c <=? 0 then 100 else c) /\
    Size b = Z.min (Z.of_nat (length messages)) (Capacity b).
Proof.
  pose proof (NewLogBuffer_capacity_pos c) as HC.
  destruct (pushAll_repr _ messages [] _ HC (repr_New c)) as (b & Hp & Hr).
  exists b. split; [done|]. unfold Capacity, Size.
  rewrite (repr_capacity _ _ _ Hr), (repr_size _ _ _ Hr).
  split; [done|]. simpl. rewrite lastn_length. lia.
Qed.

(** X2.  While fewer messages were pushed than the capacity, [GetAll]
    returns all of them in push order. *)
Theorem GetAll_below_capacity (C : Z) (messages : list string) :
  Z.of_nat (length messages) < C ->
  exists b, pushAll (NewLogBuffer C) messages = Ok b /\ GetAll b = Ok messages.
Proof.
  intros Hlt. assert (HC : 0 < C) by lia.
  destruct (GetAll_after_pushes C messages HC) as (b & Hp & Hall).
  exists b. split; [done|].
  rewrite Hall. by destruct (Z.ltb_spec (Z.of_nat (length messages)) C); [|lia].
Qed.

Lemma GetAll_below_capacity_witness :
  exists b, pushAll (NewLogBuffer 3) ["a"; "b"]%string = Ok b /\
            GetAll b = Ok ["a"; "b"]%string.
Proof. apply (GetAll_below_capacity 3 ["a"; "b"]%string). simpl. lia. Defined.

(** X3.  Once at least as many messages were pushed as the capacity [C],
    [GetAll] returns [C] empty strings, whatever was pushed. *)
Theorem GetAll_at_capacity (C : Z) (messages : list string) :
  0 < C -> C <= Z.of_nat (length messages) ->
  exists b, pushAll (NewLogBuffer C) messages = Ok b /\
            GetAll b = Ok (replicate (Z.to_nat C) ""%string).
Proof.
  intros HC Hge.
  destruct (GetAll_after_pushes C messages HC) as (b & Hp & Hall).
  exists b. split; [done|].
  rewrite Hall. by destruct (Z.ltb_spec (Z.of_nat (length messages)) C); [lia|].
Qed.

Lemma GetAll_at_capacity_witness :
  exists b, pushAll (NewLogBuffer 2) ["a"; "b"; "c"]%string = Ok b /\
            GetAll b = Ok (replicate (Z.to_nat 2) ""%string).
Proof. apply (GetAll_at_capacity 2 ["a"; "b"; "c"]%string); simpl; lia. Defined.

(** X4.  After any calls of [Push] and [Clear] on a buffer from
    [NewLogBuffer], a buffer that is not empty is full or has
    [start < end]: the wrap-around branch of [GetAll] is never taken, and
    [GetAll] returns [Size] strings without a panic. *)
Theorem GetAll_never_wraps (c : Z) (calls : list call) :
  exists b, runCalls (NewLogBuffer c) calls = Ok b /\
    (size b = 0 \/ isFull b || (start b <? end_ b) = true) /\
    exists l, GetAll b = Ok l /\ Z.of_nat (length l) = Size b.
Proof.
  pose proof (NewLogBuffer_capacity_pos c) as HC.
  destruct (runCalls_repr _ calls [] _ HC (repr_New c)) as (b & Hrun & Hr).
  exists b. split; [done|].
  pose proof (repr_GetAll _ _ b HC Hr) as Hall.
  destruct Hr as [Hc Hl Hs Hb Hf Hst He Hlin Hit].
  split.
  - destruct (isFull b) eqn:Hfull; [by right|].
    specialize (Hlin eq_refl).
    symmetry in Hf. apply bool_decide_eq_false_1 in Hf.
    destruct (decide (size b = 0)) as [|Hnz]; [by left|right].
    rewrite He, Hlin, Z.add_0_l, Z.mod_small by lia. simpl.
    apply Z.ltb_lt. lia.
  - eexists. split; [done|]. unfold Size.
    destruct (isFull b).
    + symmetry in Hf. apply bool_decide_eq_true_1 in Hf.
      rewrite length_replicate. lia.
    + lia.
Qed.

(** X5.  Consecutive pages tile: on a buffer reached by any calls, the page
    of [l2] items behind the page [(offset, l1)], followed by that page, is
    the page [(offset, l1 + l2)]. *)
Theorem Get_pages_tile (c : Z) (calls : list call) (offset l1 l2 : Z) :
  0 <= offset -> 0 < l1 -> 0 < l2 ->
  exists b newer older,
    runCalls (NewLogBuffer c) calls = Ok b /\
    Get b offset l1 = Ok newer /\
    Get b (offset + l1) l2 = Ok older /\
    Get b offset (l1 + l2) = Ok (older ++ newer).
Proof.
  intros Ho H1 H2.
  pose proof (NewLogBuffer_capacity_pos c) as HC.
  destruct (runCalls_repr _ calls [] _ HC (repr_New c)) as (b & Hrun & Hr).
  exists b. do 2 eexists. split; [done|].
  rewrite !(repr_Get _ _ b _ _ HC Hr) by lia.
  repeat split.
  rewrite !Z2Nat.inj_add by lia. by rewrite page_tiles.
Qed.

Lemma Get_pages_tile_witness :
  exists b newer older,
    runCalls (NewLogBuffer 4)
      [CallPush "a"; CallPush "b"; CallPush "c"; CallPush "d"; CallPush "e"]%string = Ok b /\
    Get b 1 1 = Ok newer /\
    Get b (1 + 1) 2 = Ok older /\
    Get b 1 (1 + 2) = Ok (older ++ newer).
Proof.
  apply (Get_pages_tile 4
           [CallPush "a"; CallPush "b"; CallPush "c"; CallPush "d"; CallPush "e"]%string
           1 1 2); lia.
Defined.

(** X6.  On a buffer reached by pushes, [Get 0 limit] with [limit] at least
    the count returns everything retained, oldest first, and [Get] with an
    offset at least the count returns nothing. *)
Theorem Get_everything_and_beyond (c : Z) (messages : list string) (offset limit : Z) :
  0 < limit ->
  exists b, pushAll (NewLogBuffer c) messages = Ok b /\
    (Size b <= limit ->
     Get b 0 limit = Ok (lastn (Z.to_nat (Capacity b)) messages)) /\
    (Size b <= offset -> Get b offset limit = Ok []).
Proof.
  intros Hl.
  pose proof (NewLogBuffer_capacity_pos c) as HC.
  destruct (pushAll_repr _ messages [] _ HC (repr_New c)) as (b & Hp & Hr).
  exists b. split; [done|]. simpl in Hr.
  unfold Size, Capacity. rewrite (repr_capacity _ _ _ Hr).
  pose proof (repr_size _ _ _ Hr) as Hs.
  pose proof (repr_bound _ _ _ Hr) as Hb.
  split; intros Hle.
  - rewrite (repr_Get _ _ b 0 limit HC Hr) by lia.
    by rewrite page_all by lia.
  - rewrite (repr_Get _ _ b offset limit HC Hr) by lia.
    by rewrite page_beyond by lia.
Qed.

Lemma Get_everything_and_beyond_witness :
  exists b, pushAll (NewLogBuffer 2) ["a"; "b"; "c"]%string = Ok b /\
    (Size b <= 5 ->
     Get b 0 5 = Ok (lastn (Z.to_nat (Capacity b)) ["a"; "b"; "c"]%string)) /\
    (Size b <= 2 -> Get b 2 5 = Ok []).
Proof. apply (Get_everything_and_beyond 2 ["a"; "b"; "c"]%string 2 5). lia. Defined.

(** X7.  [Clear] forgets: whatever calls came before it, a buffer that is
    cleared and then pushed to answers every [Get], and [Size], as a fresh
    buffer of the same capacity given the same pushes. *)
Theorem Clear_then_pushes_as_fresh (c : Z) (before : list call)
    (messages : list string) (offset limit : Z) :
  exists b fresh,
    runCalls (NewLogBuffer c) (before ++ CallClear :: (CallPush <$> messages)) = Ok b /\
    pushAll (NewLogBuffer c) messages = Ok fresh /\
    Capacity b = Capacity fresh /\
    Size b = Size fresh /\
    Get b offset limit = Get fresh offset limit.
Proof.
  pose proof (NewLogBuffer_capacity_pos c) as HC.
  destruct (runCalls_repr _ (before ++ CallClear :: (CallPush <$> messages)) [] _
              HC (repr_New c)) as (b & Hrun & Hr).
  destruct (pushAll_repr _ messages [] _ HC (repr_New c)) as (fresh & Hp & Hf).
  exists b, fresh. do 2 (split; [done|]).
  rewrite retained_app in Hr. simpl in Hr.
  rewrite retained_pushes in Hr by (simpl; lia).
  simpl in Hr, Hf. unfold Capacity, Size.
  rewrite (repr_capacity _ _ _ Hr), (repr_capacity _ _ _ Hf).
  rewrite (repr_size _ _ _ Hr), (repr_size _ _ _ Hf).
  by rewrite (repr_Get_any _ _ b _ _ HC Hr), (repr_Get_any _ _ fresh _ _ HC Hf).
Qed.

(** * Further properties of the rule engine *)

Section RuleFacts.

Lemma definedRuleOps_other (name : string) :
  name <> "not"%string -> name <> "or"%string -> name <> "and"%string ->
  name <> "contains"%string -> definedRuleOps !! name = None.
Proof.
  intros. unfold definedRuleOps.
  rewrite !lookup_insert_ne by done. by apply lookup_singleton_ne.
Qed.

Lemma or_loop_disjunction (run : runFn) (arg : any) (els : list any) (bs : list bool) (i : Z) :
  Forall2 (fun el b => decodes_to run arg (b, None) el) els bs ->
  or_loop run i els arg = Some (existsb id bs, None).
Proof.
  intros H. revert i. induction H as [|el b els bs (r & Hr & Hrun) _ IH]; intros i; simpl.
  - done.
  - rewrite Hr, Hrun. destruct b; simpl; [done|apply IH].
Qed.

Lemma and_loop_conjunction (run : runFn) (arg : any) (els : list any) (bs : list bool) (i : Z) :
  Forall2 (fun el b => decodes_to run arg (b, None) el) els bs ->
  and_loop run i els arg = Some (forallb id bs, None).
Proof.
  intros H. revert i. induction H as [|el b els bs (r & Hr & Hrun) _ IH]; intros i; simpl.
  - done.
  - rewrite Hr, Hrun. destruct b; simpl; [apply IH|done].
Qed.

Lemma or_loop_failure (run : runFn) (arg : any) (i : Z) (pre : list any) (bad : any)
    (later : list any) :
  Forall (decodes_to run arg (false, None)) pre ->
  or_loop run i (pre ++ bad :: later) arg =
    or_loop run (i + Z.of_nat (length pre)) (bad :: later) arg.
Proof.
  intros Hpre. revert i.
  induction Hpre as [|el pre (r & Hr & Hrun) _ IH]; intros i.
  - simpl length. by rewrite Z.add_0_r.
  - simpl app. simpl length.
    replace (i + Z.of_nat (S (length pre))) with (i + 1 + Z.of_nat (length pre)) by lia.
    rewrite <- IH. simpl. by rewrite Hr, Hrun.
Qed.

Lemma and_loop_failure (run : runFn) (arg : any) (i : Z) (pre : list any) (bad : any)
    (later : list any) :
  Forall (decodes_to run arg (true, None)) pre ->
  and_loop run i (pre ++ bad :: later) arg =
    and_loop run (i + Z.of_nat (length pre)) (bad :: later) arg.
Proof.
  intros Hpre. revert i.
  induction Hpre as [|el pre (r & Hr & Hrun) _ IH]; intros i.
  - simpl length. by rewrite Z.add_0_r.
  - simpl app. simpl length.
    replace (i + Z.of_nat (S (length pre))) with (i + 1 + Z.of_nat (length pre)) by lia.
    rewrite <- IH. simpl. by rewrite Hr, Hrun.
Qed.

End RuleFacts.

(** X8.  A rule whose operation is none of [not], [or], [and], [contains]
    (the names are case-sensitive) evaluates to false with the error
    "run rule op ... not found" naming the operation. *)
Theorem Run_unknown_operation (fuel : nat) (r : Rule) (arg : any) :
  Op r <> "not"%string -> Op r <> "or"%string -> Op r <> "and"%string ->
  Op r <> "contains"%string ->
  Run (S fuel) definedRuleOps r arg =
    Some (false, Some (fmt_Errorf "run rule op %q not found" [FStr (Op r)] None)).
Proof.
  intros. simpl. by rewrite definedRuleOps_other.
Qed.

Lemma Run_unknown_operation_witness :
  Run 1 definedRuleOps (mkRule "Contains" (AString "x")) (AString "x") =
    Some (false, Some (fmt_Errorf "run rule op %q not found" [FStr "Contains"] None)).
Proof.
  apply (Run_unknown_operation 0 (mkRule "Contains" (AString "x")) (AString "x"));
    discriminate.
Defined.

(** X9.  [ruleDataToRule] succeeds exactly on an object whose [Op] field is
    a string; the rule then has that operation and the [Data] field, nil
    when the field is missing.  When it fails it returns the zero rule. *)
Theorem ruleDataToRule_decodes (data : any) (r : Rule) :
  (ruleDataToRule data = (r, None) <->
   exists obj op, data = AObject obj /\
                  fields_lookup obj "Op" = Some (AString op) /\
                  r = mkRule op (match fields_lookup obj "Data" with
                                 | Some v => v
                                 | None => ANil
                                 end)) /\
  (forall e, ruleDataToRule data = (r, Some e) -> r = Rule_zero).
Proof.
  split; [split|].
  - destruct data as [| | | | |obj]; try discriminate.
    unfold ruleDataToRule, map_index.
    destruct (fields_lookup obj "Op") as [[| | |op| |]|] eqn:Hop; try discriminate.
    intros [= <-]. by exists obj, op.
  - intros (obj & op & -> & Hop & ->).
    unfold ruleDataToRule, map_index. by rewrite Hop.
  - intros e. destruct data as [| | | | |obj]; try by intros [= <-].
    unfold ruleDataToRule.
    destruct (map_index obj "Op"); by intros [= <-].
Qed.

(** X10.  Double negation: [not] over [not] over a rule returns what the
    rule returns, the boolean and the error alike. *)
Theorem not_not (fuel : nat) (data line : any) (R : Rule) (v : verdict) :
  ruleDataToRule data = (R, None) ->
  Run fuel definedRuleOps R line = Some v ->
  Run (S (S fuel)) definedRuleOps (mkRule "not" (not_value data)) line = Some v.
Proof.
  intros Hdec Hrun. destruct v as [ret err].
  change (op_not (Run (S fuel) definedRuleOps) (not_value data) line = Some (ret, err)).
  unfold op_not, not_value. rewrite ruleDataToRule_value.
  change (Run (S fuel) definedRuleOps (mkRule "not" data) line)
    with (op_not (Run fuel definedRuleOps) data line).
  unfold op_not. rewrite Hdec, Hrun. by rewrite negb_involutive.
Qed.

Lemma not_not_witness :
  Run 3 definedRuleOps
      (mkRule "not" (not_value (rule_value (mkRule "contains" (AString "ERROR")))))
      (AString "disk ERROR") = Some (true, None).
Proof.
  apply (not_not 1 (rule_value (mkRule "contains" (AString "ERROR")))
           (AString "disk ERROR") (mkRule "contains" (AString "ERROR")) (true, None));
    reflexivity.
Defined.

(** X11.  Over elements that all evaluate without an error, [or] returns the
    disjunction and [and] the conjunction of their booleans. *)
Theorem or_and_fold (fuel : nat) (line : any) (els : list any) (bs : list bool) :
  Forall2 (fun el b => decodes_to (Run fuel definedRuleOps) line (b, None) el) els bs ->
  Run (S fuel) definedRuleOps (mkRule "or" (AArray els)) line = Some (existsb id bs, None) /\
  Run (S fuel) definedRuleOps (mkRule "and" (AArray els)) line = Some (forallb id bs, None).
Proof.
  intros H. split.
  - change (or_loop (Run fuel definedRuleOps) 0 els line = Some (existsb id bs, None)).
    by apply or_loop_disjunction.
  - change (and_loop (Run fuel definedRuleOps) 0 els line = Some (forallb id bs, None)).
    by apply and_loop_conjunction.
Qed.

Lemma or_and_fold_witness :
  let els := [rule_value (mkRule "contains" (AString "WARN"));
              rule_value (mkRule "contains" (AString "ERROR"))] in
  Run 2 definedRuleOps (mkRule "or" (AArray els)) (AString "disk ERROR")
    = Some (existsb id [false; true], None) /\
  Run 2 definedRuleOps (mkRule "and" (AArray els)) (AString "disk ERROR")
    = Some (forallb id [false; true], None).
Proof.
  intros els.
  apply (or_and_fold 1 (AString "disk ERROR") els [false; true]).
  repeat constructor.
  - exists (mkRule "contains" (AString "WARN")). split; reflexivity.
  - exists (mkRule "contains" (AString "ERROR")). split; reflexivity.
Defined.

(** X12.  De Morgan: over elements that all evaluate without an error,
    [not] over [or] of the elements and [and] over the [not] of each element
    return the same verdict. *)
Theorem not_or_is_and_not (fuel : nat) (line : any) (els : list any) (bs : list bool) :
  Forall2 (fun el b => decodes_to (Run fuel definedRuleOps) line (b, None) el) els bs ->
  Run (S (S fuel)) definedRuleOps
      (mkRule "not" (rule_value (mkRule "or" (AArray els)))) line
    = Some (negb (existsb id bs), None) /\
  Run (S (S fuel)) definedRuleOps
      (mkRule "and" (AArray (not_value <$> els))) line
    = Some (negb (existsb id bs), None).
Proof.
  intros H. split.
  - change (op_not (Run (S fuel) definedRuleOps)
                   (rule_value (mkRule "or" (AArray els))) line
            = Some (negb (existsb id bs), None)).
    unfold op_not. rewrite ruleDataToRule_value.
    by rewrite (proj1 (or_and_fold fuel line els bs H)).
  - change (and_loop (Run (S fuel) definedRuleOps) 0 (not_value <$> els) line
            = Some (negb (existsb id bs), None)).
    rewrite (and_loop_conjunction _ _ _ (negb <$> bs)).
    + f_equal. f_equal. clear H. induction bs as [|[|] bs IH]; simpl; auto.
    + apply Forall2_fmap. eapply Forall2_impl; [exact H|].
      intros el b (r & Hr & Hrun). unfold compose.
      exists (mkRule "not" el). split; [apply ruleDataToRule_value|].
      change (op_not (Run fuel definedRuleOps) el line = Some (negb b, None)).
      unfold op_not. by rewrite Hr, Hrun.
Qed.

Lemma not_or_is_and_not_witness :
  let els := [rule_value (mkRule "contains" (AString "WARN"));
              rule_value (mkRule "contains" (AString "ERROR"))] in
  Run 3 definedRuleOps (mkRule "not" (rule_value (mkRule "or" (AArray els))))
      (AString "disk ERROR") = Some (negb (existsb id [false; true]), None) /\
  Run 3 definedRuleOps (mkRule "and" (AArray (not_value <$> els)))
      (AString "disk ERROR") = Some (negb (existsb id [false; true]), None).
Proof.
  intros els.
  apply (not_or_is_and_not 1 (AString "disk ERROR") els [false; true]).
  repeat constructor.
  - exists (mkRule "contains" (AString "WARN")). split; reflexivity.
  - exists (mkRule "contains" (AString "ERROR")). split; reflexivity.
Defined.

(** X13.  The first element of [or] (after elements that are false) or of
    [and] (after elements that are true) that is not a rule, or whose rule
    returns an error, ends the evaluation with an error that wraps the cause
    and carries the position of that element; the elements after it do not
    matter. *)
Theorem or_and_error_position (fuel : nat) (line : any) (falses trues : list any)
    (bad : any) (later : list any) (r : Rule) (ret : bool) (cause : option error)
    (e : error) :
  Forall (decodes_to (Run fuel definedRuleOps) line (false, None)) falses ->
  Forall (decodes_to (Run fuel definedRuleOps) line (true, None)) trues ->
  ruleDataToRule bad = (r, cause) ->
  (cause = Some e \/ (cause = None /\ Run fuel definedRuleOps r line = Some (ret, Some e))) ->
  Run (S fuel) definedRuleOps (mkRule "or" (AArray (falses ++ bad :: later))) line =
    Some (match cause with
          | Some _ => (false, Some (fmt_Errorf "rule or: data %d is not rule: %w"
                                      [FInt (Z.of_nat (length falses))] (Some e)))
          | None => (ret, Some (fmt_Errorf "running or rule %d: %w"
                                  [FInt (Z.of_nat (length falses))] (Some e)))
          end) /\
  Run (S fuel) definedRuleOps (mkRule "and" (AArray (trues ++ bad :: later))) line =
    Some (match cause with
          | Some _ => (false, Some (fmt_Errorf "rule and: data %d is not rule: %w"
                                      [FInt (Z.of_nat (length trues))] (Some e)))
          | None => (ret, Some (fmt_Errorf "running and rule %d: %w"
                                  [FInt (Z.of_nat (length trues))] (Some e)))
          end).
Proof.
  intros Hfalses Htrues Hdec Hcause. split.
  - change (Run (S fuel) definedRuleOps (mkRule "or" (AArray (falses ++ bad :: later))) line)
      with (or_loop (Run fuel definedRuleOps) 0 (falses ++ bad :: later) line).
    rewrite or_loop_failure by done. simpl. rewrite Hdec.
    destruct Hcause as [-> | [-> Hrun]]; [done|].
    rewrite Hrun. by destruct ret.
  - change (Run (S fuel) definedRuleOps (mkRule "and" (AArray (trues ++ bad :: later))) line)
      with (and_loop (Run fuel definedRuleOps) 0 (trues ++ bad :: later) line).
    rewrite and_loop_failure by done. simpl. rewrite Hdec.
    destruct Hcause as [-> | [-> Hrun]]; [done|].
    rewrite Hrun. by destruct ret.
Qed.

Lemma or_and_error_position_witness :
  let hasERROR := rule_value (mkRule "contains" (AString "ERROR")) in
  let hasWARN := rule_value (mkRule "contains" (AString "WARN")) in
  let e := fmt_Errorf "data to rule: %q not an object" [FAny (AString "oops")] None in
  Run 2 definedRuleOps (mkRule "or" (AArray ([hasWARN] ++ AString "oops" :: [ANil])))
      (AString "disk ERROR") =
    Some (false, Some (fmt_Errorf "rule or: data %d is not rule: %w"
                         [FInt (Z.of_nat (length [hasWARN]))] (Some e))) /\
  Run 2 definedRuleOps (mkRule "and" (AArray ([hasERROR] ++ AString "oops" :: [ANil])))
      (AString "disk ERROR") =
    Some (false, Some (fmt_Errorf "rule and: data %d is not rule: %w"
                         [FInt (Z.of_nat (length [hasERROR]))] (Some e))).
Proof.
  intros hasERROR hasWARN e.
  apply (or_and_error_position 1 (AString "disk ERROR") [hasWARN] [hasERROR]
           (AString "oops") [ANil] Rule_zero false (Some e) e).
  - repeat constructor. exists (mkRule "contains" (AString "WARN")). split; reflexivity.
  - repeat constructor. exists (mkRule "contains" (AString "ERROR")). split; reflexivity.
  - reflexivity.
  - by left.
Defined.

Section Substring.

Lemma HasPrefix_spec (s prefix : string) :
  HasPrefix s prefix = true <-> exists rest, s = String.append prefix rest.
Proof.
  revert s. induction prefix as [|c prefix IH]; intros s; simpl.
  - split; [intros _; by exists s | by destruct s].
  - destruct s as [|d s].
    + simpl. split; [done | by intros [rest ?]].
    + simpl. rewrite andb_true_iff, Ascii.eqb_eq, IH. split.
      * intros [-> [rest ->]]. by exists rest.
      * intros [rest [= -> ->]]. split; [done | by exists rest].
Qed.

Lemma Contains_spec (s substr : string) :
  Contains s substr = true <->
  exists before after, s = String.append before (String.append substr after).
Proof.
  induction s as [|c s IH].
  - cbn [Contains]. rewrite orb_false_r, HasPrefix_spec. split.
    + intros [rest ->]. by exists EmptyString, rest.
    + intros ([|? before] & after & H); [by exists after | done].
  - cbn [Contains]. rewrite orb_true_iff, HasPrefix_spec, IH. split.
    + intros [[rest ->] | (before & after & ->)].
      * by exists EmptyString, rest.
      * by exists (String c before), after.
    + intros ([|d before] & after & H).
      * left. by exists after.
      * right. injection H as -> ->. by exists before, after.
Qed.

End Substring.

(** X14.  The rule [contains check] on a line returns no error, and true
    exactly when [check] occurs in the line as a contiguous substring
    (byte for byte, so case-sensitive); when the data or the candidate is
    not a string it returns false with an error, the candidate being looked
    at first. *)
Theorem contains_matches_substrings (fuel : nat) (data arg : any) :
  (forall line check, arg = AString line -> data = AString check ->
     exists b, Run (S fuel) definedRuleOps (mkRule "contains" data) arg = Some (b, None) /\
       (b = true <->
        exists before after,
          line = String.append before (String.append check after))) /\
  ((forall line, arg <> AString line) ->
     Run (S fuel) definedRuleOps (mkRule "contains" data) arg =
       Some (false, Some (errors_New "rule contains: arg is not string"))) /\
  (forall line, arg = AString line -> (forall check, data <> AString check) ->
     Run (S fuel) definedRuleOps (mkRule "contains" data) arg =
       Some (false, Some (errors_New "rule contains: data is not string"))).
Proof.
  change (Run (S fuel) definedRuleOps (mkRule "contains" data) arg)
    with (op_contains (Run fuel definedRuleOps) data arg).
  unfold op_contains. repeat split.
  - intros line check -> ->. eexists. split; [done|]. apply Contains_spec.
  - intros Harg. destruct arg; try done. by destruct (Harg s).
  - intros line -> Hdata. destruct data; try done. by destruct (Hdata s).
Qed.

(** X15.  Evaluation over [definedRuleOps] terminates: every rule has one
    verdict, reached with any fuel above the nesting depth of its data. *)
Theorem Run_terminates (r : Rule) (arg : any) :
  exists v, forall fuel, (depth (Data r) < fuel)%nat ->
    Run fuel definedRuleOps r arg = Some v.
Proof.
  destruct (Run_total (S (depth (Data r))) r arg ltac:(lia)) as [v Hv].
  exists v. intros fuel Hfuel.
  eapply Run_more_fuel; [|exact Hv]. lia.
Qed.

Section WellFormed.

Lemma or_loop_no_error (run : runFn) (arg : any) (els : list any) (i : Z) :
  Forall (fun el => exists b, decodes_to run arg (b, None) el) els ->
  exists b, or_loop run i els arg = Some (b, None).
Proof.
  intros H. revert i.
  induction H as [|el els (b & r & Hr & Hrun) _ IH]; intros i; simpl.
  - by eexists.
  - rewrite Hr, Hrun. destruct b; [by eexists | apply IH].
Qed.

Lemma and_loop_no_error (run : runFn) (arg : any) (els : list any) (i : Z) :
  Forall (fun el => exists b, decodes_to run arg (b, None) el) els ->
  exists b, and_loop run i els arg = Some (b, None).
Proof.
  intros H. revert i.
  induction H as [|el els (b & r & Hr & Hrun) _ IH]; intros i; simpl.
  - by eexists.
  - rewrite Hr, Hrun. destruct b; [apply IH | by eexists].
Qed.

Lemma well_formed_elements (fuel : nat) (line : string) (els : list any) :
  (forall r, (depth (Data r) < fuel)%nat -> well_formed r ->
     exists b, Run fuel definedRuleOps r (AString line) = Some (b, None)) ->
  (depth (AArray els) <= fuel)%nat ->
  Forall (fun el => exists r, ruleDataToRule el = (r, None) /\ well_formed r) els ->
  Forall (fun el => exists b,
            decodes_to (Run fuel definedRuleOps) (AString line) (b, None) el) els.
Proof.
  intros IH Hd Hels. apply Forall_forall. intros el Hin.
  rewrite Forall_forall in Hels. destruct (Hels el Hin) as (r & Hr & Hwf).
  destruct (IH r) as [b Hb]; [|done|by exists b, r].
  apply ruleDataToRule_depth in Hr. apply depth_element in Hin. lia.
Qed.

Lemma well_formed_Run (fuel : nat) (line : string) (r : Rule) :
  (depth (Data r) < fuel)%nat -> well_formed r ->
  exists b, Run fuel definedRuleOps r (AString line) = Some (b, None).
Proof.
  revert r. induction fuel as [|fuel IH]; intros r Hd Hwf; [lia|].
  inversion Hwf as [check Heq | data r' Hdec Hwf' Heq | els Hels Heq | els Hels Heq];
    subst r; simpl in Hd.
  - by eexists.
  - change (exists b, op_not (Run fuel definedRuleOps) data (AString line) = Some (b, None)).
    unfold op_not. rewrite Hdec.
    destruct (IH r') as [b ->]; [|done|by eexists].
    apply ruleDataToRule_depth in Hdec. lia.
  - change (exists b, or_loop (Run fuel definedRuleOps) 0 els (AString line) = Some (b, None)).
    apply or_loop_no_error, well_formed_elements; [done|simpl; lia|done].
  - change (exists b, and_loop (Run fuel definedRuleOps) 0 els (AString line) = Some (b, None)).
    apply and_loop_no_error, well_formed_elements; [done|simpl; lia|done].
Qed.

End WellFormed.

(** X16.  A well-formed rule (registered operations, data of the expected
    shape at every node) never returns an error on a line: with fuel above
    its depth it returns a boolean and nil. *)
Theorem well_formed_never_fails (r : Rule) (line : string) :
  well_formed r ->
  exists b, forall fuel, (depth (Data r) < fuel)%nat ->
    Run fuel definedRuleOps r (AString line) = Some (b, None).
Proof.
  intros Hwf.
  destruct (well_formed_Run (S (depth (Data r))) line r ltac:(lia) Hwf) as [b Hb].
  exists b. intros fuel Hfuel.
  eapply Run_more_fuel; [|exact Hb]. lia.
Qed.

Lemma well_formed_never_fails_witness :
  exists b, forall fuel,
    (depth (Data (mkRule "not" (rule_value (mkRule "contains" (AString "x"))))) < fuel)%nat ->
    Run fuel definedRuleOps (mkRule "not" (rule_value (mkRule "contains" (AString "x"))))
        (AString "xyz") = Some (b, None).
Proof.
  apply (well_formed_never_fails
           (mkRule "not" (rule_value (mkRule "contains" (AString "x")))) "xyz").
  apply (wf_not _ (mkRule "contains" (AString "x"))); [reflexivity | constructor].
Defined.

(** * Further properties of the directory scan *)

Section ScanFacts.

Variable env : Env.
Variable fuel : nat.
Variable dirPath : string.

Lemma eligibleb_spec (de : DirEntry) : eligibleb de = true <-> eligible de.
Proof.
  unfold eligibleb, eligible. rewrite andb_true_iff, negb_true_iff. tauto.
Qed.

Lemma matchLines_kept (C : Z) (r : Rule) (f : File) (kept : list string) (buf : LogBuffer) :
  0 < C -> repr C kept buf -> judged fuel r f ->
  exists buf', matchLines fuel r buf f = Ok buf' /\
    repr C (lastn (Z.to_nat C) (kept ++ List.filter (accepts fuel (Some r)) f)) buf'.
Proof.
  intros HC Hr Hj. revert kept buf Hr.
  induction Hj as [|line rest [ret Hrun] _ IH]; intros kept buf Hr; simpl.
  - exists buf. split; [done|]. rewrite app_nil_r, lastn_all; [done|].
    pose proof (repr_size _ _ _ Hr). pose proof (repr_bound _ _ _ Hr). lia.
  - rewrite Hrun. destruct ret.
    + destruct (repr_Push C kept buf line HC Hr) as (b1 & -> & Hr1). simpl.
      destruct (IH _ _ Hr1) as (buf' & Hm & Hr').
      exists buf'. split; [done|].
      rewrite lastn_app_lastn in Hr'. by rewrite <- app_assoc in Hr'.
    + by apply IH.
Qed.

Lemma filter_all {A : Type} (l : list A) : List.filter (fun _ => true) l = l.
Proof. induction l as [|x l IH]; simpl; by rewrite ?IH. Qed.

Lemma scanFile_kept (C : Z) (rule : option Rule) (f : File) (kept : list string)
    (buf : LogBuffer) :
  0 < C -> repr C kept buf -> (forall r, rule = Some r -> judged fuel r f) ->
  exists buf', scanFile fuel rule buf f = Ok buf' /\
    repr C (lastn (Z.to_nat C) (kept ++ List.filter (accepts fuel rule) f)) buf'.
Proof.
  intros HC Hr Hj. destruct rule as [r|]; simpl.
  - apply matchLines_kept; auto.
  - rewrite pushLines_pushAll.
    unfold accepts. rewrite filter_all.
    by apply pushAll_repr.
Qed.

Lemma scanEntries_kept (C : Z) (rule : option Rule) (d : list DirEntry)
    (kept : list string) (buf : LogBuffer) :
  0 < C -> repr C kept buf -> Forall (passes env fuel dirPath rule) d ->
  exists buf', scanEntries env fuel dirPath rule buf d = Ok buf' /\
    repr C (lastn (Z.to_nat C)
              (kept ++ List.filter (accepts fuel rule) (readable env dirPath d))) buf'.
Proof.
  intros HC Hr Hd. revert kept buf Hr.
  induction Hd as [|de rest Hde _ IH]; intros kept buf Hr; simpl.
  - exists buf. split; [done|]. rewrite app_nil_r, lastn_all; [done|].
    pose proof (repr_size _ _ _ Hr). pose proof (repr_bound _ _ _ Hr). lia.
  - unfold eligibleb. destruct (IsDir de) eqn:Hdir; simpl; [by apply IH|].
    destruct (HasSuffix (Name de) ".log") eqn:Hsuf; simpl; [|by apply IH].
    destruct (Hde (conj Hdir Hsuf)) as (f & -> & Hj).
    destruct (scanFile_kept C rule f kept buf HC Hr Hj) as (b1 & -> & Hr1). simpl.
    destruct (IH _ _ Hr1) as (buf' & Hs & Hr').
    exists buf'. split; [done|].
    rewrite lastn_app_lastn in Hr'.
    by rewrite List.filter_app, app_assoc.
Qed.

Lemma scanEntries_filter (rule : option Rule) (buf : LogBuffer) (d : list DirEntry) :
  scanEntries env fuel dirPath rule buf (List.filter eligibleb d) =
  scanEntries env fuel dirPath rule buf d.
Proof.
  revert buf. induction d as [|de rest IH]; intros buf; simpl; [done|].
  unfold eligibleb at 1.
  destruct (IsDir de) eqn:Hdir; simpl; [by apply IH|].
  destruct (HasSuffix (Name de) ".log") eqn:Hsuf; simpl; [|by apply IH].
  rewrite Hdir, Hsuf. simpl.
  destruct (os_Open env (filepath_Join env dirPath (Name de))); [|done].
  destruct (scanFile fuel rule buf f); simpl; auto.
Qed.

Lemma newest_first_page {A : Type} (all : list A) (offset limit : nat) :
  reverse (page (lastn (offset + limit) all) offset limit) =
  take limit (drop offset (reverse all)).
Proof.
  unfold page, lastn. rewrite reverse_involutive, reverse_drop.
  destruct (decide (offset + limit <= length all)%nat) as [Hle|Hgt].
  - replace (length all - (length all - (offset + limit)))%nat
      with (offset + limit)%nat by lia.
    rewrite <- take_drop_commute, take_take. f_equal. lia.
  - replace (length all - (length all - (offset + limit)))%nat
      with (length all) by lia.
    by rewrite (take_ge (reverse all)) by (rewrite length_reverse; lia).
Qed.

End ScanFacts.

Section Allocation.

Lemma NewLogBuffer_within_spec (max_len c : Z) :
  NewLogBuffer_within max_len c =
    if max_len <? (if c <=? 0 then 100 else c) then Panic else Ok (NewLogBuffer c).
Proof.
  unfold NewLogBuffer_within, make_within, NewLogBuffer.
  pose proof (NewLogBuffer_capacity_pos c).
  destruct (Z.ltb_spec (if c <=? 0 then 100 else c) 0); [lia|].
  by destruct (max_len <? (if c <=? 0 then 100 else c)).
Qed.

(** When the buffer can be allocated, [processDir_within] is [processDir]. *)
Lemma processDir_within_allocated (max_len : Z) (env : Env) (fuel : nat)
    (dirPath : string) (rule : option Rule) (limit offset : Z) :
  (if int_add limit offset <=? 0 then 100 else int_add limit offset) <= max_len ->
  processDir_within max_len env fuel dirPath rule limit offset =
  processDir env fuel dirPath rule limit offset.
Proof.
  intros Hfit. unfold processDir_within, processDir, scanDir.
  destruct (os_ReadDir env dirPath) as [d [e|]]; [done|].
  rewrite NewLogBuffer_within_spec.
  by destruct (Z.ltb_spec max_len
                 (if int_add limit offset <=? 0 then 100 else int_add limit offset));
    [lia|].
Qed.

(** When it cannot, and the directory was listed, [processDir_within] panics. *)
Lemma processDir_within_too_large (max_len : Z) (env : Env) (fuel : nat)
    (dirPath : string) (rule : option Rule) (limit offset : Z) (d : list DirEntry) :
  os_ReadDir env dirPath = (d, None) ->
  max_len < (if int_add limit offset <=? 0 then 100 else int_add limit offset) ->
  processDir_within max_len env fuel dirPath rule limit offset = Panic.
Proof.
  intros Hread Hbig. unfold processDir_within. rewrite Hread.
  rewrite NewLogBuffer_within_spec.
  by destruct (Z.ltb_spec max_len
                 (if int_add limit offset <=? 0 then 100 else int_add limit offset));
    [|lia].
Qed.

(** The page [processDir] returns after a scan without error, the buffer
    being allocated. *)
Lemma processDir_page_allocated (env : Env) (fuel : nat) (dirPath : string)
    (rule : option Rule) (limit offset : Z) (d : list DirEntry) :
  os_ReadDir env dirPath = (d, None) ->
  Forall (passes env fuel dirPath rule) d ->
  0 <= offset -> 0 < limit -> limit + offset < 2 ^ 63 ->
  processDir env fuel dirPath rule limit offset =
    Ok (parseMsg env <$>
          take (Z.to_nat limit)
            (drop (Z.to_nat offset)
               (reverse (List.filter (accepts fuel rule) (readable env dirPath d))))).
Proof.
  intros Hread Hd Ho Hl Hsum.
  unfold processDir, scanDir. rewrite Hread.
  rewrite int_add_exact by lia.
  assert (HC : 0 < limit + offset) by lia.
  destruct (scanEntries_kept env fuel dirPath _ rule d [] _ HC
              (NewLogBuffer_repr _ HC) Hd) as (buf & -> & Hr).
  simpl. rewrite (repr_Get _ _ buf offset limit HC Hr Ho Hl). simpl.
  rewrite parseMsgs_map. simpl. do 2 f_equal.
  replace (Z.to_nat (limit + offset)) with (Z.to_nat offset + Z.to_nat limit)%nat by lia.
  apply newest_first_page.
Qed.

End Allocation.

(** X17.  When the directory is listed, every file read opens and every
    line is judged without an error, and [offset >= 0], [limit > 0] with
    [limit + offset] within 64 bits and within what [make] can allocate,
    [processDir] returns the records of the kept lines (all lines without a
    rule, those the rule accepts otherwise) of the [*.log] files, newest
    first: [offset] lines skipped from the line read last, then at most
    [limit] lines. *)
Theorem processDir_within_page (max_len : Z) (env : Env) (fuel : nat) (dirPath : string)
    (rule : option Rule) (limit offset : Z) (d : list DirEntry) :
  os_ReadDir env dirPath = (d, None) ->
  Forall (passes env fuel dirPath rule) d ->
  0 <= offset -> 0 < limit -> limit + offset < 2 ^ 63 ->
  limit + offset <= max_len ->
  processDir_within max_len env fuel dirPath rule limit offset =
    Ok (parseMsg env <$>
          take (Z.to_nat limit)
            (drop (Z.to_nat offset)
               (reverse (List.filter (accepts fuel rule) (readable env dirPath d))))).
Proof.
  intros Hread Hd Ho Hl Hsum Hfit.
  rewrite processDir_within_allocated.
  - by apply processDir_page_allocated.
  - rewrite int_add_exact by lia.
    destruct (Z.leb_spec (limit + offset) 0); lia.
Qed.

Lemma processDir_within_page_witness :
  processDir_within 1000 demo_env 1 "logs" (Some (mkRule "contains" (AString "2"))) 1 1 =
    Ok (parseMsg demo_env <$>
          take (Z.to_nat 1)
            (drop (Z.to_nat 1)
               (reverse (List.filter
                           (accepts 1 (Some (mkRule "contains" (AString "2"))))
                           (readable demo_env "logs"
                              [mkDirEntry "a.log" false; mkDirEntry "b.log" false]))))).
Proof.
  apply (processDir_within_page 1000 demo_env 1 "logs"
           (Some (mkRule "contains" (AString "2"))) 1 1
           [mkDirEntry "a.log" false; mkDirEntry "b.log" false]);
    [reflexivity | | lia | lia | lia | lia].
  repeat constructor.
  - intros _. exists ["a1"; "a2"; "a3"]%string. split; [reflexivity|].
    intros r [= <-]. repeat constructor; eexists; reflexivity.
  - intros _. exists ["b1"; "b2"; "b3"]%string. split; [reflexivity|].
    intros r [= <-]. repeat constructor; eexists; reflexivity.
Defined.

Section Listing.

Variable env : Env.
Variable fuel : nat.
Variable dirPath : string.

Lemma scanEntries_with_listing (listing : list DirEntry) (rule : option Rule)
    (buf : LogBuffer) (d : list DirEntry) :
  scanEntries (with_listing env listing) fuel dirPath rule buf d =
  scanEntries env fuel dirPath rule buf d.
Proof.
  revert buf. induction d as [|de rest IH]; intros buf; simpl; [done|].
  destruct (IsDir de); [by apply IH|].
  destruct (HasSuffix (Name de) ".log"); simpl; [|by apply IH].
  destruct (os_Open env (filepath_Join env dirPath (Name de))); [|done].
  destruct (scanFile fuel rule buf f); simpl; auto.
Qed.

End Listing.

(** X18.  Directories and entries whose name does not end in [.log] play no
    part: [processDir] gives the same result, records or error, as on the
    listing with those entries removed. *)
Theorem processDir_ignores_other_entries (env : Env) (fuel : nat) (dirPath : string)
    (rule : option Rule) (limit offset : Z) (d : list DirEntry) :
  os_ReadDir env dirPath = (d, None) ->
  processDir env fuel dirPath rule limit offset =
  processDir (with_listing env (List.filter eligibleb d)) fuel dirPath rule limit offset.
Proof.
  intros Hread. unfold processDir, scanDir. rewrite Hread. simpl.
  rewrite scanEntries_with_listing, scanEntries_filter.
  destruct (scanEntries env fuel dirPath rule (NewLogBuffer (int_add limit offset)) d);
    simpl; try done.
  destruct (Get a offset limit); simpl; try done.
  by rewrite !parseMsgs_map.
Qed.

Lemma processDir_ignores_other_entries_witness :
  processDir demo_env 0 "mixed" None 5 0 =
  processDir (with_listing demo_env
                (List.filter eligibleb
                   [mkDirEntry "old" true; mkDirEntry "notes.txt" false;
                    mkDirEntry "c.log" false]))
             0 "mixed" None 5 0.
Proof.
  apply (processDir_ignores_other_entries demo_env 0 "mixed" None 5 0
           [mkDirEntry "old" true; mkDirEntry "notes.txt" false; mkDirEntry "c.log" false]).
  reflexivity.
Defined.

(** X19.  With [offset < 0] or [limit <= 0], [processDir] never returns
    records: the directory is scanned all the same, and when the scan ends
    without an error the call fails with the error of [Get]. *)
Theorem processDir_rejects_bad_page (env : Env) (fuel : nat) (dirPath : string)
    (rule : option Rule) (limit offset : Z) :
  offset < 0 \/ limit <= 0 ->
  (forall recs, processDir env fuel dirPath rule limit offset <> Ok recs) /\
  (forall buf, scanDir env fuel dirPath rule limit offset = Ok buf ->
     processDir env fuel dirPath rule limit offset = Err Get_error).
Proof.
  intros Hbad.
  assert (HGet : forall buf, Get buf offset limit = Err Get_error).
  { intros buf. unfold Get.
    destruct (Z.ltb_spec offset 0); [done|].
    destruct (Z.leb_spec limit 0); [done|lia]. }
  unfold processDir. split.
  - intros recs.
    destruct (scanDir env fuel dirPath rule limit offset); simpl; try done.
    by rewrite HGet.
  - intros buf ->. simpl. by rewrite HGet.
Qed.

Lemma processDir_rejects_bad_page_witness :
  (forall recs, processDir demo_env 0 "logs" None 0 0 <> Ok recs) /\
  (forall buf, scanDir demo_env 0 "logs" None 0 0 = Ok buf ->
     processDir demo_env 0 "logs" None 0 0 = Err Get_error).
Proof. apply (processDir_rejects_bad_page demo_env 0 "logs" None 0 0). right. lia. Defined.

(** X20.  With fuel above the depth of the rule, [processDir] panics
    exactly when the directory was listed and the buffer of capacity
    [limit + offset] (100 when that is not positive) is longer than [make]
    can allocate; in every other case it returns records or an error: no
    [Push] or [Get] of the scan indexes out of range or divides by zero,
    whatever the directory holds. *)
Theorem processDir_panics_only_at_allocation (max_len : Z) (env : Env) (fuel : nat)
    (dirPath : string) (rule : option Rule) (limit offset : Z) :
  enough_fuel fuel rule ->
  match processDir_within max_len env fuel dirPath rule limit offset with
  | Ok _ | Err _ =>
      snd (os_ReadDir env dirPath) <> None \/
      (if int_add limit offset <=? 0 then 100 else int_add limit offset) <= max_len
  | Panic =>
      snd (os_ReadDir env dirPath) = None /\
      max_len < (if int_add limit offset <=? 0 then 100 else int_add limit offset)
  | OutOfFuel => False
  end.
Proof.
  intros Hfuel.
  set (cap := if int_add limit offset <=? 0 then 100 else int_add limit offset).
  destruct (os_ReadDir env dirPath) as [d [e|]] eqn:Hread.
  - unfold processDir_within. rewrite Hread. by left.
  - destruct (Z.lt_ge_cases max_len cap) as [Hbig|Hfit].
    + by rewrite (processDir_within_too_large max_len env fuel dirPath rule
                    limit offset d Hread Hbig).
    + rewrite (processDir_within_allocated max_len env fuel dirPath rule
                 limit offset Hfit).
      destruct (processDir_returns env fuel dirPath rule limit offset Hfuel)
        as [[recs ->] | [e ->]]; by right.
Qed.

Lemma processDir_panics_only_at_allocation_witness :
  match processDir_within 1000 demo_env 1 "logs"
          (Some (mkRule "contains" (AString "2"))) (2 ^ 62) 0 with
  | Ok _ | Err _ =>
      snd (os_ReadDir demo_env "logs") <> None \/
      (if int_add (2 ^ 62) 0 <=? 0 then 100 else int_add (2 ^ 62) 0) <= 1000
  | Panic =>
      snd (os_ReadDir demo_env "logs") = None /\
      1000 < (if int_add (2 ^ 62) 0 <=? 0 then 100 else int_add (2 ^ 62) 0)
  | OutOfFuel => False
  end.
Proof.
  apply (processDir_panics_only_at_allocation 1000 demo_env 1 "logs"
           (Some (mkRule "contains" (AString "2"))) (2 ^ 62) 0).
  intros r [= <-]. simpl. lia.
Defined.

(** X21.  A successful [processDir] returns at most [limit] records, and
    only for [limit > 0] and [offset >= 0]. *)
Theorem processDir_at_most_limit (env : Env) (fuel : nat) (dirPath : string)
    (rule : option Rule) (limit offset : Z) (recs : list record) :
  enough_fuel fuel rule ->
  processDir env fuel dirPath rule limit offset = Ok recs ->
  Z.of_nat (length recs) <= limit /\ 0 < limit /\ 0 <= offset.
Proof.
  intros Hfuel. unfold processDir.
  pose proof (scanDir_ends_well env fuel dirPath rule limit offset Hfuel) as Hscan.
  pose proof (NewLogBuffer_capacity_pos (int_add limit offset)) as HC.
  destruct (scanDir env fuel dirPath rule limit offset) as [buf| | |]; simpl in *; try done.
  destruct Hscan as [kept Hr].
  rewrite (repr_Get_any _ _ buf offset limit HC Hr).
  destruct (Z.ltb_spec offset 0); [done|].
  destruct (Z.leb_spec limit 0); [done|]. simpl.
  rewrite parseMsgs_map. intros [= <-]. simpl.
  rewrite length_fmap, length_reverse, page_length. lia.
Qed.

Lemma processDir_at_most_limit_witness :
  Z.of_nat (length (parseMsg demo_env <$> ["a3"; "a2"; "a1"]%string)) <= 3 /\ 0 < 3 /\ 0 <= 3.
Proof.
  apply (processDir_at_most_limit demo_env 0 "logs" None 3 3).
  - intros r. discriminate.
  - reflexivity.
Defined.

(** X22.  The buffer the scan ends with has the capacity it was created
    with ([limit + offset], or 100 when that is not positive), exactly that
    many slots, and a count within the capacity: the scan keeps no more
    lines than that, however many it reads. *)
Theorem scan_buffer_is_bounded (env : Env) (fuel : nat) (dirPath : string)
    (rule : option Rule) (limit offset : Z) (buf : LogBuffer) :
  enough_fuel fuel rule ->
  scanDir env fuel dirPath rule limit offset = Ok buf ->
  Capacity buf = (if int_add limit offset <=? 0 then 100 else int_add limit offset) /\
  Z.of_nat (length (buffer buf)) = Capacity buf /\
  0 <= Size buf <= Capacity buf.
Proof.
  intros Hfuel Hscan.
  pose proof (scanDir_ends_well env fuel dirPath rule limit offset Hfuel) as Hwell.
  rewrite Hscan in Hwell. destruct Hwell as [kept Hr].
  unfold Capacity, Size.
  rewrite (repr_capacity _ _ _ Hr), (repr_length _ _ _ Hr).
  pose proof (repr_size _ _ _ Hr). pose proof (repr_bound _ _ _ Hr).
  repeat split; lia.
Qed.

Lemma scan_buffer_is_bounded_witness :
  exists buf, scanDir demo_env 0 "logs" None 2 2 = Ok buf /\
    Capacity buf = (if int_add 2 2 <=? 0 then 100 else int_add 2 2) /\
    Z.of_nat (length (buffer buf)) = Capacity buf /\
    0 <= Size buf <= Capacity buf.
Proof.
  pose proof (scan_buffer_is_bounded demo_env 0 "logs" None 2 2) as Hbound.
  destruct (scanDir demo_env 0 "logs" None 2 2) as [buf| | |] eqn:Hscan;
    [|vm_compute in Hscan; discriminate Hscan..].
  exists buf. split; [reflexivity|].
  apply Hbound; [|reflexivity].
  intros r. discriminate.
Defined.

(** * The request handler *)

(** X23.  The rule [handleLogDir] evaluates: the directory's own rule set of
    the requested name when there is one, otherwise (directory unknown, name
    unknown in it, or a nil entry) the global rule set of that name, and nil
    when that is missing too; the directory's entry wins whatever the global
    mapping holds. *)
Theorem handleLogDir_rule_precedence (saved : SavedStuff) (dirName ruleSetName : string) :
  (forall dirRules r,
     LogDirs saved !! dirName = Some dirRules ->
     dirRules !! ruleSetName = Some (Some r) ->
     handleLogDir_rule saved dirName ruleSetName = Some r) /\
  ((LogDirs saved !! dirName = None \/
    exists dirRules, LogDirs saved !! dirName = Some dirRules /\
                     (dirRules !! ruleSetName = None \/
                      dirRules !! ruleSetName = Some None)) ->
   handleLogDir_rule saved dirName ruleSetName =
     match RuleSets saved !! ruleSetName with
     | Some (Some r) => Some r
     | _ => None
     end).
Proof.
  unfold handleLogDir_rule, rules_index. split.
  - intros dirRules r -> ->. done.
  - intros [-> | (dirRules & -> & [-> | ->])];
      by destruct (RuleSets saved !! ruleSetName) as [[r|]|].
Qed.

Lemma handleLogDir_rule_precedence_witness :
  let own := mkRule "contains" (AString "ERROR") in
  let global := mkRule "contains" (AString "WARN") in
  let saved := mkSavedStuff {[ "errors"%string := Some global ]}
                            {[ "logs"%string := {[ "errors"%string := Some own ]} ]} in
  handleLogDir_rule saved "logs" "errors" = Some own /\
  handleLogDir_rule saved "other" "errors" = Some global.
Proof.
  intros own global saved.
  destruct (handleLogDir_rule_precedence saved "logs" "errors") as [Hown _].
  destruct (handleLogDir_rule_precedence saved "other" "errors") as [_ Hglobal].
  split.
  - apply (Hown {[ "errors"%string := Some own ]}); reflexivity.
  - rewrite Hglobal; [reflexivity|]. left. reflexivity.
Defined.

(** X24.  A request with no usable [limit] and [offset] (absent or not a
    number) and a rule-set name known neither to the directory nor globally
    shows the unfiltered directory: when the scan meets no error, the
    records of the last 500 lines of the [*.log] files, newest first. *)
Theorem handleLogDir_default_view (env : Env) (Atoi : string -> Z + error) (fuel : nat)
    (saved : SavedStuff) (dirName ruleSetName limit offset : string)
    (d : list DirEntry) (e1 e2 : error) :
  Atoi limit = inr e1 -> Atoi offset = inr e2 ->
  handleLogDir_rule saved dirName ruleSetName = None ->
  os_ReadDir env dirName = (d, None) ->
  Forall (passes env fuel dirName None) d ->
  handleLogDir_messages env Atoi fuel saved dirName ruleSetName limit offset =
    Ok (parseMsg env <$> take 500 (reverse (readable env dirName d))).
Proof.
  intros Hlimit Hoffset Hrule Hread Hd.
  unfold handleLogDir_messages, query_int. rewrite Hlimit, Hoffset, Hrule.
  unfold processDir, scanDir. rewrite Hread.
  change (int_add 500 0) with 500.
  destruct (scanEntries_kept env fuel dirName 500 None d [] _ ltac:(lia)
              (NewLogBuffer_repr 500 ltac:(lia)) Hd) as (buf & -> & Hr).
  simpl rbind. rewrite (repr_Get 500 _ buf 0 500 ltac:(lia) Hr) by lia.
  simpl rbind. rewrite parseMsgs_map. simpl app. do 2 f_equal.
  unfold accepts. rewrite filter_all.
  change (Z.to_nat 500) with (0 + 500)%nat.
  by rewrite (newest_first_page _ 0 500), drop_0.
Qed.

Lemma handleLogDir_default_view_witness :
  handleLogDir_messages demo_env (fun _ => inr (errors_New "invalid syntax")) 0
      (mkSavedStuff ∅ ∅) "logs" "" "" "" =
    Ok (parseMsg demo_env <$>
          take 500 (reverse (readable demo_env "logs"
                               [mkDirEntry "a.log" false; mkDirEntry "b.log" false]))).
Proof.
  apply (handleLogDir_default_view demo_env (fun _ => inr (errors_New "invalid syntax")) 0
           (mkSavedStuff ∅ ∅) "logs" "" "" ""
           [mkDirEntry "a.log" false; mkDirEntry "b.log" false]
           (errors_New "invalid syntax") (errors_New "invalid syntax"));
    [reflexivity | reflexivity | reflexivity | reflexivity | ].
  repeat constructor.
  - intros _. exists ["a1"; "a2"; "a3"]%string. split; [reflexivity | discriminate].
  - intros _. exists ["b1"; "b2"; "b3"]%string. split; [reflexivity | discriminate].
Defined.

(** X25.  A [limit] that parses to a number that is not positive, or an
    [offset] that parses to a negative number, is not replaced by the
    default: the request returns no records, and fails with the error of
    [Get] when the scan itself meets no error. *)
Theorem handleLogDir_bad_page_is_not_defaulted (env : Env) (Atoi : string -> Z + error)
    (fuel : nat) (saved : SavedStuff) (dirName ruleSetName limit offset : string)
    (n : Z) :
  (Atoi limit = inl n /\ n <= 0) \/ (Atoi offset = inl n /\ n < 0) ->
  (forall recs,
     handleLogDir_messages env Atoi fuel saved dirName ruleSetName limit offset
       <> Ok recs) /\
  (forall buf,
     scanDir env fuel dirName (handleLogDir_rule saved dirName ruleSetName)
       (query_int Atoi limit 500) (query_int Atoi offset 0) = Ok buf ->
     handleLogDir_messages env Atoi fuel saved dirName ruleSetName limit offset
       = Err Get_error).
Proof.
  intros Hbad. unfold handleLogDir_messages, processDir.
  set (l := query_int Atoi limit 500). set (o := query_int Atoi offset 0).
  assert (HGet : forall buf, Get buf o l = Err Get_error).
  { intros buf. unfold Get.
    assert (o < 0 \/ l <= 0) as Hol.
    { subst l o. unfold query_int.
      destruct Hbad as [[-> ?] | [-> ?]]; [by right | by left]. }
    destruct (Z.ltb_spec o 0); [done|].
    destruct (Z.leb_spec l 0); [done|lia]. }
  split.
  - intros recs.
    destruct (scanDir env fuel dirName (handleLogDir_rule saved dirName ruleSetName) l o);
      simpl; try done.
    by rewrite HGet.
  - intros buf ->. simpl. by rewrite HGet.
Qed.

Lemma handleLogDir_bad_page_is_not_defaulted_witness :
  (forall recs,
     handleLogDir_messages demo_env (fun _ => inl 0) 0 (mkSavedStuff ∅ ∅)
       "logs" "" "0" "0" <> Ok recs) /\
  (forall buf,
     scanDir demo_env 0 "logs" (handleLogDir_rule (mkSavedStuff ∅ ∅) "logs" "")
       (query_int (fun _ => inl 0) "0" 500) (query_int (fun _ => inl 0) "0" 0) = Ok buf ->
     handleLogDir_messages demo_env (fun _ => inl 0) 0 (mkSavedStuff ∅ ∅)
       "logs" "" "0" "0" = Err Get_error).
Proof.
  apply (handleLogDir_bad_page_is_not_defaulted demo_env (fun _ => inl 0) 0
           (mkSavedStuff ∅ ∅) "logs" "" "0" "0" 0).
  left. split; [reflexivity | lia].
Defined.

(** * The rendering of the other parameters *)

Section KeyOrder.

Lemma ascii_compare_N (a b : Ascii.ascii) :
  Ascii.compare a b = N.compare (Ascii.N_of_ascii a) (Ascii.N_of_ascii b).
Proof. reflexivity. Qed.

Lemma string_compare_cons (a b : Ascii.ascii) (s t : string) :
  String.compare (String a s) (String b t) =
  match Ascii.compare a b with
  | Eq => String.compare s t
  | c => c
  end.
Proof. simpl. by destruct (Ascii.compare a b). Qed.

Lemma string_le_trans (a b c : string) :
  string_le a b -> string_le b c -> string_le a c.
Proof.
  unfold string_le, String.leb. revert b c.
  induction a as [|x a IH]; intros [|y b] [|z c]; try done.
  rewrite !string_compare_cons, !ascii_compare_N.
  destruct (N.compare_spec (Ascii.N_of_ascii x) (Ascii.N_of_ascii y)) as [Hxy|Hxy|Hxy];
    destruct (N.compare_spec (Ascii.N_of_ascii y) (Ascii.N_of_ascii z)) as [Hyz|Hyz|Hyz];
    try done.
  - rewrite Hxy, Hyz, N.compare_refl. apply IH.
  - intros _ _. rewrite Hxy. by rewrite (proj2 (N.compare_lt_iff _ _) Hyz).
  - intros _ _. rewrite <- Hyz. by rewrite (proj2 (N.compare_lt_iff _ _) Hxy).
  - intros _ _.
    by rewrite (proj2 (N.compare_lt_iff _ _) (N.lt_trans _ _ _ Hxy Hyz)).
Qed.

#[local] Instance string_le_transitive : Transitive string_le.
Proof. intros a b c. apply string_le_trans. Qed.

#[local] Instance string_le_antisymm : AntiSymm (=) string_le.
Proof. intros a b Hab Hba. by apply String.leb_antisym. Qed.

#[local] Instance string_le_total : Total string_le.
Proof. intros a b. apply String.leb_total. Qed.

Lemma sorted_keys_Sorted (msg : record) : Sorted string_le (sorted_keys msg).
Proof. apply Sorted_merge_sort. apply _. Qed.

Lemma sorted_keys_Permutation (msg : record) :
  sorted_keys msg ≡ₚ (map_to_list msg).*1.
Proof. apply merge_sort_Permutation. Qed.

Lemma string_app_nil_r (s : string) : String.append s EmptyString = s.
Proof.
  induction s as [|c s IH]; [done|].
  change (String c (String.append s EmptyString) = String c s). by rewrite IH.
Qed.

Lemma string_app_assoc (s t u : string) :
  String.append (String.append s t) u = String.append s (String.append t u).
Proof.
  induction s as [|c s IH]; [done|].
  change (String c (String.append (String.append s t) u) =
          String c (String.append s (String.append t u))).
  by rewrite IH.
Qed.

Lemma StronglySorted_filter {A : Type} (R : relation A) (P : A -> Prop)
    `{!forall x, Decision (P x)} (l : list A) :
  StronglySorted R l -> StronglySorted R (filter P l).
Proof.
  induction 1 as [|x l Hl IH Hx]; [constructor|].
  rewrite filter_cons. destruct (decide (P x)); [|done].
  constructor; [done|].
  rewrite Forall_forall in Hx. apply Forall_forall.
  intros y Hy. apply list_elem_of_filter in Hy as [_ Hy]. by apply Hx.
Qed.

Lemma marshal_loop (fmt_q : string -> string) (fmt_v : any -> string) (msg : record)
    (keys : list string) (acc : string) :
  foldl (fun ret k =>
           if bool_decide (k ∈ skip) then ret
           else String.append ret
                  (String.append (fmt_q k)
                     (String.append "=" (String.append (fmt_v (default ANil (msg !! k))) " "))))
        acc keys =
  String.append acc (render_params fmt_q fmt_v msg (filter (fun k => k ∉ skip) keys)).
Proof.
  revert acc. induction keys as [|k keys IH]; intros acc.
  - symmetry. apply string_app_nil_r.
  - cbn [foldl]. rewrite filter_cons, IH.
    destruct (decide (k ∈ skip)) as [Hin|Hout].
    + rewrite bool_decide_eq_true_2 by done.
      by destruct (decide (k ∉ skip)).
    + rewrite bool_decide_eq_false_2 by done.
      destruct (decide (k ∉ skip)); [|done].
      unfold render_params at 2. cbn [foldr]. fold (render_params fmt_q fmt_v msg).
      unfold render_param. by rewrite !string_app_assoc.
Qed.

(** The keys [marshalOtherParams] renders, in the order it renders them. *)
Lemma marshalOtherParams_fold (fmt_q : string -> string) (fmt_v : any -> string)
    (msg : record) :
  marshalOtherParams fmt_q fmt_v msg =
  render_params fmt_q fmt_v msg (filter (fun k => k ∉ skip) (sorted_keys msg)).
Proof. unfold marshalOtherParams. by rewrite marshal_loop. Qed.

Lemma rendered_keys_elem (msg : record) (k : string) :
  k ∈ filter (fun k => k ∉ skip) (sorted_keys msg) <-> is_Some (msg !! k) /\ k ∉ skip.
Proof.
  rewrite list_elem_of_filter, sorted_keys_Permutation, list_elem_of_fmap.
  split.
  - intros [Hk ([k' x] & -> & Hin)]. apply elem_of_map_to_list in Hin.
    split; [by exists x | done].
  - intros [[x Hx] Hk]. split; [done|].
    exists (k, x). split; [done|]. by apply elem_of_map_to_list.
Qed.

Lemma rendered_keys_NoDup (msg : record) :
  NoDup (filter (fun k => k ∉ skip) (sorted_keys msg)).
Proof.
  apply NoDup_filter. rewrite sorted_keys_Permutation. apply NoDup_fst_map_to_list.
Qed.

Lemma rendered_keys_Sorted (msg : record) :
  Sorted string_le (filter (fun k => k ∉ skip) (sorted_keys msg)).
Proof.
  apply StronglySorted_Sorted, StronglySorted_filter, Sorted_StronglySorted.
  - apply _.
  - apply sorted_keys_Sorted.
Qed.

(** X26.  [marshalOtherParams] renders each key other than [level], [time]
    and [message] once, in ascending (byte-wise) key order, as the key, [=],
    the value and a space; nothing else is in the output. *)
Theorem marshalOtherParams_renders_sorted_other_keys (fmt_q : string -> string)
    (fmt_v : any -> string) (msg : record) :
  exists keys,
    Sorted string_le keys /\ NoDup keys /\
    (forall k, k ∈ keys <-> is_Some (msg !! k) /\ k ∉ skip) /\
    marshalOtherParams fmt_q fmt_v msg = render_params fmt_q fmt_v msg keys.
Proof.
  exists (filter (fun k => k ∉ skip) (sorted_keys msg)).
  split; [apply rendered_keys_Sorted|].
  split; [apply rendered_keys_NoDup|].
  split; [apply rendered_keys_elem|].
  apply marshalOtherParams_fold.
Qed.

(** X27.  The entries [level], [time] and [message] never show: two records
    that agree on every other key are rendered alike, whatever they hold,
    or do not hold, under those three keys. *)
Theorem marshalOtherParams_ignores_skipped (fmt_q : string -> string)
    (fmt_v : any -> string) (msg msg' : record) :
  (forall k, k ∉ skip -> msg !! k = msg' !! k) ->
  marshalOtherParams fmt_q fmt_v msg = marshalOtherParams fmt_q fmt_v msg'.
Proof.
  intros Hagree. rewrite !marshalOtherParams_fold.
  assert (Hkeys : filter (fun k => k ∉ skip) (sorted_keys msg) =
                  filter (fun k => k ∉ skip) (sorted_keys msg')).
  { apply (Sorted_unique string_le); try apply rendered_keys_Sorted.
    apply NoDup_Permutation; try apply rendered_keys_NoDup.
    intros k. rewrite !rendered_keys_elem.
    split; intros [Hk Hskip]; (split; [|done]).
    - by rewrite <- Hagree.
    - by rewrite Hagree. }
  rewrite <- Hkeys. unfold render_params.
  assert (Hall : Forall (fun k => k ∉ skip)
                        (filter (fun k => k ∉ skip) (sorted_keys msg))).
  { apply Forall_forall. intros k Hk. by apply list_elem_of_filter in Hk as [? _]. }
  clear Hkeys. induction Hall as [|k keys Hk _ IH]; [done|].
  cbn [foldr]. rewrite IH. unfold render_param. by rewrite (Hagree k Hk).
Qed.

Lemma marshalOtherParams_ignores_skipped_witness :
  marshalOtherParams (fun k => k) (fun _ => "v"%string)
      {[ "message"%string := AString "disk full"; "host"%string := AString "a" ]} =
  marshalOtherParams (fun k => k) (fun _ => "v"%string)
      {[ "host"%string := AString "a" ]}.
Proof.
  apply (marshalOtherParams_ignores_skipped (fun k => k) (fun _ => "v"%string)).
  intros k Hk. rewrite lookup_insert_ne; [done|].
  intros <-. apply Hk. unfold skip. set_solver.
Defined.

End KeyOrder.
